(** * PeasyPlayer: input arbitration and playback-session state machine

    A shallow embedding of [peasyplayer.py] (class [PeasyPlayer]) and the
    properties its specification states about it.

    Modelling conventions.
    - Wall-clock values ([time.time()], delays, timeouts) are rationals
      ([Q]). Where the program adds an integral delay or timeout to a
      clock reading and compares, the sum is taken exactly; in the pacing
      step, whose quotient and differences are not exact in doubles, the
      rounding of each operation is modelled ([fl]). A literal of the
      source is written as the decimal it reads ([time.sleep(0.1)] sleeps
      [1 # 10]).
    - Everything the program only observes (the clock, the VLC engine's
      state and position, the RFID reader, the file system, the random
      shuffle) is an environment [Env] of oracles; the [n]-th call of an
      oracle reads its [n]-th answer, and the world counts the calls.
    - Everything the program does to the outside (VLC commands, log
      records, sleeps, hardware hand-back) is appended to a chronological
      [trace].
    - Exceptions are results: a method is a function
      [World -> res A * World]; mutations made before a raise persist.
    - Button callbacks and the main loop run in different threads in the
      program; here every handler is one atomic step on the world. *)

From Stdlib Require Import QArith Lqa ZArith String Ascii List Bool Lia.
From stdpp Require Import gmap strings.

(** ** Python values and exceptions *)

Inductive pyval :=
| PyNone
| PyBool (b : bool)
| PyInt (z : Z).

Inductive exn :=
| FileNotFoundError
| PermissionError
| NotADirectoryError
| TypeError
| AttributeError
| OSError            (* an OSError of none of the subclasses above *)
| KeyboardInterrupt
| SystemExit.

Inductive res (A : Type) :=
| Ret (a : A)
| Raise (e : exn).
Arguments Ret {A} a.
Arguments Raise {A} e.

(** ** What the outside world sees *)

Inductive level := DEBUG | INFO | WARNING.

(** One constructor per logging call site of the source; the arguments are
    the values interpolated into the message. *)
Inductive logmsg :=
| BeginPlayer
| InactivityTimeout (minutes : Q)
| MediaPlayerState (st : Z)
| PlayingDefaultMovie
| RawFolderName (folder : option string)
| RfidScanned (folder : string)
| ErrorScanningRfid
| ClosingApplication
| FilesInDir (files : list string)
| MoviesFound (n : nat)
| ExnMessage (e : exn)
| Movies (movies : list string)
| PlayingMediaList (len : nat)
| LoopingSetTo (b : bool)
| PlayingMoviesFromFolder (folder : string)
| Forwarding (seconds : Z)
| Rewinding (seconds : Z)
| WasInput (input_id : string)
| ButtonsClosed.

(** Commands sent to the VLC list player and its media player. *)
Inductive vlc_call :=
| set_media_list (l : list string)
| set_playback_mode (m : Z)
| lp_next
| lp_play
| lp_pause
| lp_stop
| set_fullscreen (b : bool)
| set_time (t : Z).

Inductive effect :=
| Log (lvl : level) (msg : logmsg)
| Vlc (c : vlc_call)
| Sleep (d : Q)
| ReaderCleanup
| ButtonClose (name : string).

(** ** The environment *)

Inductive listing :=
| Entries (names : list string)
| ListdirRaises (e : exn).

(** What the statement [scanned, folder = rfidpeasyplayer.scan_card(reader)]
    does: it binds the two names, or it raises (a result that cannot be
    unpacked raises TypeError). The module is not part of the class; its
    results are readings of the environment. *)
Inductive scan_outcome :=
| ScanReturns (scanned : bool) (folder : option string)
| ScanRaises (e : exn).

Record Env := mkEnv {
  clock : nat -> Q;             (* successive readings of time.time() *)
  engine_state : nat -> Z;      (* successive answers of list_player.get_state() *)
  engine_position : nat -> Z;   (* successive answers of media_player.get_time(), in ms *)
  rfid : nat -> scan_outcome;   (* successive results of rfidpeasyplayer.scan_card *)
  fs : string -> listing;       (* the result of os.listdir on a path *)
  rng : nat -> list string -> list string (* successive random.shuffle results *)
}.

(** ** The world: the PeasyPlayer object, the list player's settings, the
    call counters of the oracles and the trace *)

Record World := mkWorld {
  last_input_times : gmap string Q;  (* defaultdict(float) *)
  play_pause_was_held : bool;
  last_action_time : Q;
  inactive_timeout : Q;
  lp_media_list : list string;       (* the list player's current media list *)
  lp_playback_mode : Z;              (* 0 = default, 1 = loop *)
  clock_reads : nat;
  state_reads : nat;
  position_reads : nat;
  scans : nat;
  shuffles : nat;
  trace : list effect
}.

Definition set_last_input_times (m : gmap string Q) (w : World) : World :=
  mkWorld m (play_pause_was_held w) (last_action_time w) (inactive_timeout w)
          (lp_media_list w) (lp_playback_mode w) (clock_reads w) (state_reads w)
          (position_reads w) (scans w) (shuffles w) (trace w).

Definition set_play_pause_was_held (b : bool) (w : World) : World :=
  mkWorld (last_input_times w) b (last_action_time w) (inactive_timeout w)
          (lp_media_list w) (lp_playback_mode w) (clock_reads w) (state_reads w)
          (position_reads w) (scans w) (shuffles w) (trace w).

Definition set_last_action_time (t : Q) (w : World) : World :=
  mkWorld (last_input_times w) (play_pause_was_held w) t (inactive_timeout w)
          (lp_media_list w) (lp_playback_mode w) (clock_reads w) (state_reads w)
          (position_reads w) (scans w) (shuffles w) (trace w).

Definition set_lp_media_list (l : list string) (w : World) : World :=
  mkWorld (last_input_times w) (play_pause_was_held w) (last_action_time w)
          (inactive_timeout w) l (lp_playback_mode w) (clock_reads w)
          (state_reads w) (position_reads w) (scans w) (shuffles w) (trace w).

Definition set_lp_playback_mode (m : Z) (w : World) : World :=
  mkWorld (last_input_times w) (play_pause_was_held w) (last_action_time w)
          (inactive_timeout w) (lp_media_list w) m (clock_reads w)
          (state_reads w) (position_reads w) (scans w) (shuffles w) (trace w).

Definition set_clock_reads (n : nat) (w : World) : World :=
  mkWorld (last_input_times w) (play_pause_was_held w) (last_action_time w)
          (inactive_timeout w) (lp_media_list w) (lp_playback_mode w) n
          (state_reads w) (position_reads w) (scans w) (shuffles w) (trace w).

Definition set_state_reads (n : nat) (w : World) : World :=
  mkWorld (last_input_times w) (play_pause_was_held w) (last_action_time w)
          (inactive_timeout w) (lp_media_list w) (lp_playback_mode w)
          (clock_reads w) n (position_reads w) (scans w) (shuffles w) (trace w).

Definition set_position_reads (n : nat) (w : World) : World :=
  mkWorld (last_input_times w) (play_pause_was_held w) (last_action_time w)
          (inactive_timeout w) (lp_media_list w) (lp_playback_mode w)
          (clock_reads w) (state_reads w) n (scans w) (shuffles w) (trace w).

Definition set_scans (n : nat) (w : World) : World :=
  mkWorld (last_input_times w) (play_pause_was_held w) (last_action_time w)
          (inactive_timeout w) (lp_media_list w) (lp_playback_mode w)
          (clock_reads w) (state_reads w) (position_reads w) n (shuffles w)
          (trace w).

Definition set_shuffles (n : nat) (w : World) : World :=
  mkWorld (last_input_times w) (play_pause_was_held w) (last_action_time w)
          (inactive_timeout w) (lp_media_list w) (lp_playback_mode w)
          (clock_reads w) (state_reads w) (position_reads w) (scans w) n
          (trace w).

Definition set_trace (t : list effect) (w : World) : World :=
  mkWorld (last_input_times w) (play_pause_was_held w) (last_action_time w)
          (inactive_timeout w) (lp_media_list w) (lp_playback_mode w)
          (clock_reads w) (state_reads w) (position_reads w) (scans w)
          (shuffles w) t.

(** ** The monad of methods *)

Definition M (A : Type) : Type := World -> res A * World.

Definition ret {A} (a : A) : M A := fun w => (Ret a, w).

Definition raise {A} (e : exn) : M A := fun w => (Raise e, w).

Definition bind {A B} (m : M A) (k : A -> M B) : M B := fun w =>
  match m w with
  | (Ret a, w') => k a w'
  | (Raise e, w') => (Raise e, w')
  end.

(** [try: m except e: h] *)
Definition try_except {A} (m : M A) (e : exn -> bool) (h : exn -> M A) : M A :=
  fun w =>
    match m w with
    | (Ret a, w') => (Ret a, w')
    | (Raise x, w') => if e x then h x w' else (Raise x, w')
    end.

Declare Scope py_scope.
Delimit Scope py_scope with py.
Notation "x <- c1 ;; c2" := (bind c1 (fun x => c2))
  (at level 100, c1 at next level, right associativity) : py_scope.
Notation "c1 ;; c2" := (bind c1 (fun _ => c2))
  (at level 100, right associativity) : py_scope.
Local Open Scope py_scope.

Definition emit (e : effect) : M unit := fun w =>
  (Ret tt, set_trace (trace w ++ [e]) w).

Definition logging (lvl : level) (msg : logmsg) : M unit := emit (Log lvl msg).

Definition time_sleep (d : Q) : M unit := emit (Sleep d).

Definition Qltb (x y : Q) : bool := negb (Qle_bool y x).

#[global] Instance exn_eq_dec : EqDecision exn.
Proof. solve_decision. Defined.

Definition get {A} (f : World -> A) : M A := fun w => (Ret (f w), w).

Definition modify (f : World -> World) : M unit := fun w => (Ret tt, f w).

(** ** Strings and paths *)

(** Python's [sub in s] on strings. *)
Fixpoint contains (sub s : string) : bool :=
  if String.prefix sub s then true
  else match s with
       | EmptyString => false
       | String _ s' => contains sub s'
       end.

(** A Python [str] is represented by its UTF-8 encoding, one [ascii] per
    byte. *)

(** The encodings of the characters [str.strip()] removes, those for which
    [str.isspace()] holds: U+0009..U+000D, U+001C..U+0020, U+0085, U+00A0,
    U+1680, U+2000..U+200A, U+2028, U+2029, U+202F, U+205F and U+3000. *)
Definition whitespace : list (list ascii) :=
  map (map ascii_of_nat)
    [[9]; [10]; [11]; [12]; [13]; [28]; [29]; [30]; [31]; [32];
     [194; 133]; [194; 160];
     [225; 154; 128];
     [226; 128; 128]; [226; 128; 129]; [226; 128; 130]; [226; 128; 131];
     [226; 128; 132]; [226; 128; 133]; [226; 128; 134]; [226; 128; 135];
     [226; 128; 136]; [226; 128; 137]; [226; 128; 138];
     [226; 128; 168]; [226; 128; 169]; [226; 128; 175];
     [226; 129; 159];
     [227; 128; 128]]%nat.

(** [l] without its prefix [p], when it has it. *)
Fixpoint drop_prefix (p l : list ascii) : option (list ascii) :=
  match p, l with
  | [], _ => Some l
  | a :: p', b :: l' => if Ascii.eqb a b then drop_prefix p' l' else None
  | _ :: _, [] => None
  end.

(** [l] without the first of the sequences [ps] that it starts with. *)
Fixpoint drop_first (ps : list (list ascii)) (l : list ascii) : option (list ascii) :=
  match ps with
  | [] => None
  | p :: ps' =>
      match drop_prefix p l with
      | Some r => Some r
      | None => drop_first ps' l
      end
  end.

(** Leading sequences of [ps] dropped one after the other, at most [n] of
    them. *)
Fixpoint lstrip_upto (ps : list (list ascii)) (n : nat) (l : list ascii) : list ascii :=
  match n with
  | O => l
  | S n' =>
      match drop_first ps l with
      | Some r => lstrip_upto ps n' r
      | None => l
      end
  end.

Definition lstrip (ps : list (list ascii)) (l : list ascii) : list ascii :=
  lstrip_upto ps (length l) l.

Definition rstrip (ps : list (list ascii)) (l : list ascii) : list ascii :=
  rev (lstrip (map (@rev ascii) ps) (rev l)).

(** [str.strip()] *)
Definition strip (s : string) : string :=
  string_of_list_ascii
    (rstrip whitespace (lstrip whitespace (list_ascii_of_string s))).

Fixpoint endswith_sep (s : string) : bool :=
  match s with
  | EmptyString => false
  | String c EmptyString => Ascii.eqb c "/"
  | String _ s' => endswith_sep s'
  end.

(** [os.path.join a b] of [posixpath]. *)
Definition os_path_join (a b : string) : string :=
  if String.prefix "/" b then b
  else if (String.eqb a "" || endswith_sep a)%bool then (a +:+ b)
  else (a +:+ "/" +:+ b).

(** ** The program *)

Module PeasyPlayer.

Definition movies_dir : string := "/media/usb/".
Definition default_dir : string := "/home/pi/peasyplayer/".

Definition tick_rate : Q := 10.

Definition movie_formats : list string :=
  [".mp4"; ".mov"; ".avi"; ".mkv"; ".m4v"; ".mp3"; ".wav"].

(** The for loop of [is_movie_format], over the formats still to try. *)
Fixpoint is_movie_format_from (formats : list string) (file : string) : bool :=
  match formats with
  | [] => false
  | _format :: rest =>
      if contains _format file then true else is_movie_format_from rest file
  end.

Definition is_movie_format (file : string) : bool :=
  is_movie_format_from movie_formats file.

(** [self.last_input_times[k]] read: a [defaultdict(float)] stores and
    returns [0.0] for a key it does not have. *)
Definition last_input_times_getitem (k : string) : M Q := fun w =>
  match last_input_times w !! k with
  | Some v => (Ret v, w)
  | None => (Ret 0%Q, set_last_input_times (<[k := 0%Q]> (last_input_times w)) w)
  end.

Definition last_input_times_setitem (k : string) (v : Q) : M unit :=
  modify (fun w => set_last_input_times (<[k := v]> (last_input_times w)) w).

(** A call on the list player or its media player. The calls the program
    makes return nothing it uses ([None] in the binding); the two setters
    are also recorded as the list player's current settings. *)
Definition vlc (c : vlc_call) : M pyval := fun w =>
  let w1 := match c with
            | set_media_list l => set_lp_media_list l w
            | set_playback_mode m => set_lp_playback_mode m w
            | _ => w
            end in
  (Ret PyNone, set_trace (trace w1 ++ [Vlc c]) w1).

Section Program.

Variable env : Env.

Definition time_time : M Q := fun w =>
  (Ret (clock env (clock_reads w)), set_clock_reads (S (clock_reads w)) w).

Definition lp_get_state : M Z := fun w =>
  (Ret (engine_state env (state_reads w)), set_state_reads (S (state_reads w)) w).

Definition mp_get_time : M Z := fun w =>
  (Ret (engine_position env (position_reads w)),
   set_position_reads (S (position_reads w)) w).

Definition os_listdir (path : string) : M (list string) := fun w =>
  match fs env path with
  | Entries names => (Ret names, w)
  | ListdirRaises e => (Raise e, w)
  end.

Definition random_shuffle (l : list string) : M (list string) := fun w =>
  (Ret (rng env (shuffles w) l), set_shuffles (S (shuffles w)) w).

Definition scan_card : M (bool * option string) := fun w =>
  let w' := set_scans (S (scans w)) w in
  match rfid env (scans w) with
  | ScanReturns scanned folder => (Ret (scanned, folder), w')
  | ScanRaises e => (Raise e, w')
  end.

(** *** create_media_list *)

(** The try block: [None] stands for the early [return media_list] of the
    handler, [Some movies] for falling out of the try statement. *)
Definition get_movies (path : string) : M (option (list string)) :=
  try_except
    (files <- os_listdir path ;;
     logging DEBUG (FilesInDir files) ;;
     files <- os_listdir path ;;
     let movies := map (os_path_join path) (List.filter is_movie_format files) in
     logging INFO (MoviesFound (length movies)) ;;
     ret (Some movies))
    (fun e => bool_decide (e = FileNotFoundError))
    (fun e => logging WARNING (ExnMessage e) ;; ret None).

(** [media_list.add_media(self.instance.media_new(movie))]: a media is
    represented by the path it was made from. *)
Definition add_media (media_list : list string) (movie : string) : list string :=
  media_list ++ [movie].

Definition create_media_list (path : string) (shuffle : bool) : M (list string) :=
  let media_list := [] in
  r <- get_movies path ;;
  match r with
  | None => ret media_list
  | Some movies =>
      movies <- (if shuffle then random_shuffle movies else ret movies) ;;
      let media_list := fold_left add_media movies media_list in
      logging DEBUG (Movies movies) ;;
      ret media_list
  end.

(** *** play_media_list *)

Definition play_media_list (media_list : list string) (loop : bool) : M pyval :=
  now <- time_time ;;
  modify (set_last_action_time now) ;;
  vlc (set_media_list media_list) ;;
  logging INFO (PlayingMediaList (length media_list)) ;;
  (if loop
   then (vlc (set_playback_mode 1) ;; logging DEBUG (LoopingSetTo true))
   else (vlc (set_playback_mode 0) ;; logging DEBUG (LoopingSetTo false))) ;;
  vlc lp_next ;;
  time_sleep 1 ;;
  vlc lp_play.

(** *** play_movies_from_folder; the keyword arguments [loop] and [shuffle]
    are present ([Some]) or absent ([None]). *)
Definition play_movies_from_folder (folder : string)
    (kw_loop kw_shuffle : option bool) : M pyval :=
  let folder := strip folder in
  let folder_path := os_path_join movies_dir folder in
  media_list <- match kw_shuffle with
                | Some shuffle => create_media_list folder_path shuffle
                | None => create_media_list folder_path false
                end ;;
  match kw_loop with
  | Some loop => play_media_list media_list loop
  | None =>
      logging INFO (PlayingMoviesFromFolder folder) ;;
      play_media_list media_list false
  end.

(** *** fast_forward and rewind *)

Definition fast_forward (seconds : Z) : M pyval :=
  let ms := (seconds * 1000)%Z in
  played_time <- mp_get_time ;;
  logging INFO (Forwarding seconds) ;;
  vlc (set_time (played_time + ms)) ;;
  ret PyNone.

Definition rewind (seconds : Z) : M pyval :=
  let ms := (seconds * 1000)%Z in
  played_time <- mp_get_time ;;
  logging INFO (Rewinding seconds) ;;
  vlc (set_time (played_time - ms)) ;;
  ret PyNone.

(** *** input_delay *)

Definition input_delay (callback : M pyval) (input_id : string) (delay : Q)
    : M pyval :=
  logging DEBUG (WasInput input_id) ;;
  last <- last_input_times_getitem input_id ;;
  now <- time_time ;;
  if Qltb (last + delay) now then
    stamp <- time_time ;;
    last_input_times_setitem input_id stamp ;;
    callback
  else ret PyNone.

(** *** play_pause_held and play_pause_released *)

Definition play_pause_held (func : M pyval) : M pyval :=
  modify (set_play_pause_was_held true) ;;
  func.

Definition play_pause_released (func : M pyval) : M pyval :=
  was_held <- get play_pause_was_held ;;
  if was_held then
    modify (set_play_pause_was_held false) ;;
    ret PyNone
  else func.

(** *** set_input_listeners *)

Definition movie_delay : Q := 3.
Definition control_delay : Q := 1.

(** The keys of [self.buttons]. *)
Inductive button := B1 | B2 | B3 | B4 | B5 | B6 | BFastForward | BRewind | BPause.

Definition button_key (b : button) : string :=
  match b with
  | B1 => "b1" | B2 => "b2" | B3 => "b3" | B4 => "b4" | B5 => "b5" | B6 => "b6"
  | BFastForward => "fast_forward" | BRewind => "rewind" | BPause => "pause"
  end.

Definition button_pin (b : button) : string :=
  match b with
  | B1 => "BOARD10" | B2 => "BOARD13" | B3 => "BOARD29" | B4 => "BOARD32"
  | B5 => "BOARD33" | B6 => "BOARD35"
  | BFastForward => "BOARD3" | BRewind => "BOARD7" | BPause => "BOARD16"
  end.

(** Insertion order of [self.buttons]. *)
Definition buttons : list button :=
  [B1; B2; B3; B4; B5; B6; BFastForward; BRewind; BPause].

Definition when_pressed (b : button) : option (M pyval) :=
  match b with
  | B1 => Some (input_delay (play_movies_from_folder "b1" (Some true) (Some true)) "movie" movie_delay)
  | B2 => Some (input_delay (play_movies_from_folder "b2" (Some true) (Some true)) "movie" movie_delay)
  | B3 => Some (input_delay (play_movies_from_folder "b3" (Some true) (Some true)) "movie" movie_delay)
  | B4 => Some (input_delay (play_movies_from_folder "b4" (Some true) (Some true)) "movie" movie_delay)
  | B5 => Some (input_delay (play_movies_from_folder "b5" (Some true) (Some true)) "movie" movie_delay)
  | B6 => Some (input_delay (play_movies_from_folder "b6" (Some true) (Some true)) "movie" movie_delay)
  | BFastForward => Some (input_delay (fast_forward 30) "control" control_delay)
  | BRewind => Some (input_delay (rewind 30) "control" control_delay)
  | BPause => None
  end.

Definition when_held (b : button) : option (M pyval) :=
  match b with
  | BPause => Some (play_pause_held (input_delay (vlc lp_stop) "control" control_delay))
  | _ => None
  end.

Definition when_released (b : button) : option (M pyval) :=
  match b with
  | BPause => Some (play_pause_released (input_delay (vlc lp_pause) "control" control_delay))
  | _ => None
  end.

(** The edges the GPIO driver delivers, and the callback each one runs
    (none when the attribute was never assigned). *)
Inductive edge := Pressed | Held | Released.

Definition callback_of (b : button) (e : edge) : option (M pyval) :=
  match e with
  | Pressed => when_pressed b
  | Held => when_held b
  | Released => when_released b
  end.

Definition deliver (b : button) (e : edge) : M pyval :=
  match callback_of b e with
  | Some callback => callback
  | None => ret PyNone
  end.

(** *** __init__ *)

Definition init : World :=
  {| last_input_times := ∅;
     play_pause_was_held := false;
     last_action_time := clock env 0;
     inactive_timeout := 300;
     lp_media_list := [];
     lp_playback_mode := 0;
     clock_reads := 1;
     state_reads := 0;
     position_reads := 0;
     scans := 0;
     shuffles := 0;
     trace := [Vlc (set_fullscreen true)] |}.

(** *** start: one iteration of the loop, in the three parts of its body *)

Definition playing : list Z := [1; 2; 3; 4]%Z.

Definition in_playing (player_state : Z) : bool :=
  existsb (Z.eqb player_state) playing.

(** Lines 51-57: the inactivity timeout. *)
Definition inactivity_timeout (tick_start : Q) : M unit :=
  last_action <- get last_action_time ;;
  timeout <- get inactive_timeout ;;
  if Qltb (last_action + timeout * 60) tick_start then
    logging INFO (InactivityTimeout timeout) ;;
    vlc (set_media_list []) ;;
    vlc (set_playback_mode 0) ;;
    modify (set_last_action_time tick_start)
  else ret tt.

(** How the second part leaves the iteration: by falling through to the
    RFID check, or by [continue]. *)
Inductive flow := Fallthrough | Continue.

(** Lines 59-72: play the default movie when nothing is playing. *)
Definition default_movie : M flow :=
  player_state <- lp_get_state ;;
  logging DEBUG (MediaPlayerState player_state) ;;
  if negb (in_playing player_state) then
    time_sleep (1 # 10) ;;
    again <- lp_get_state ;;
    if in_playing again then ret Continue
    else
      logging INFO PlayingDefaultMovie ;;
      media_list <- create_media_list default_dir false ;;
      play_media_list media_list true ;;
      ret Fallthrough
  else ret Fallthrough.

(** Lines 74-83: the RFID check. [folder.strip()] on [None] raises
    AttributeError. *)
Definition check_rfid : M unit :=
  try_except
    (r <- scan_card ;;
     let '(scanned, folder) := r in
     logging DEBUG (RawFolderName folder) ;;
     if (scanned : bool) then
       folder <- match folder with
                 | Some f => ret (strip f)
                 | None => raise AttributeError
                 end ;;
       logging INFO (RfidScanned folder) ;;
       input_delay (play_movies_from_folder folder (Some true) (Some true)) "rfid" 1 ;;
       ret tt
     else ret tt)
    (fun e => bool_decide (e = TypeError))
    (fun _ => logging WARNING ErrorScanningRfid).

(** *** Binary floating point in the pacing step

    [fl q] is the double nearest to [q] (ties to even), for [q] in the
    normal range of doubles: a significand of 53 bits times a power of
    two. *)

(** [n / d] rounded to the nearest integer, ties to even ([0 <= n],
    [0 < d]). *)
Definition round_half_even (n d : Z) : Z :=
  let q := (n / d)%Z in
  match (2 * (n mod d) ?= d)%Z with
  | Lt => q
  | Gt => (q + 1)%Z
  | Eq => if Z.even q then q else (q + 1)%Z
  end.

(** Numerator and denominator of [(n / d) / 2 ^ e]. *)
Definition scaled_num (n : Z) (e : Z) : Z :=
  if (0 <=? e)%Z then n else (n * 2 ^ (- e))%Z.

Definition scaled_den (d : positive) (e : Z) : Z :=
  if (0 <=? e)%Z then (Zpos d * 2 ^ e)%Z else Zpos d.

(** The significand of [n / d] for the exponent [e], rounded, times
    [2 ^ e]. *)
Definition fl_with (n : Z) (d : positive) (e : Z) : Q :=
  let m := round_half_even (scaled_num n e) (scaled_den d e) in
  if (0 <=? e)%Z then inject_Z (m * 2 ^ e) else Qmake m (Z.to_pos (2 ^ (- e))).

(** The double nearest to [n / d], for [0 < n]: rounded with the exponent
    [e] for which [2 ^ 52 <= (n / d) / 2 ^ e < 2 ^ 53]. *)
Definition fl_pos (n : Z) (d : positive) : Q :=
  let e0 := (Z.log2 n - Z.log2 (Zpos d) - 53)%Z in
  fl_with n d
    (if (2 ^ 53 * scaled_den d e0 <=? scaled_num n e0)%Z then (e0 + 1)%Z else e0).

Definition fl (q : Q) : Q :=
  match Qnum q with
  | Z0 => 0%Q
  | Zpos _ => fl_pos (Qnum q) (Qden q)
  | Zneg _ => (- fl_pos (- Qnum q) (Qden q))%Q
  end.

(** Lines 85-88: sleep for the remainder of the tick. The quotient
    [1/self.tick_rate] and the two differences are computed in doubles. *)
Definition pace (tick_start : Q) : M unit :=
  now <- time_time ;;
  let tick_elapsed := fl (now - tick_start) in
  if Qltb tick_elapsed (fl (1 / tick_rate)) then
    time_sleep (fl (fl (1 / tick_rate) - tick_elapsed))
  else ret tt.

Definition tick : M unit :=
  tick_start <- time_time ;;
  inactivity_timeout tick_start ;;
  fl <- default_movie ;;
  match fl with
  | Continue => ret tt
  | Fallthrough => check_rfid ;; pace tick_start
  end.

(** [while True], observed for [n] iterations. *)
Fixpoint loop (n : nat) : M unit :=
  match n with
  | O => ret tt
  | S n' => tick ;; loop n'
  end.

Fixpoint close_buttons (bs : list button) : M unit :=
  match bs with
  | [] => ret tt
  | b :: rest => emit (ButtonClose (button_key b)) ;; close_buttons rest
  end.

Definition start (n : nat) : M unit :=
  try_except
    (logging INFO BeginPlayer ;; loop n)
    (fun e => bool_decide (e = KeyboardInterrupt))
    (fun _ =>
       logging INFO ClosingApplication ;;
       emit ReaderCleanup ;;
       close_buttons buttons ;;
       logging DEBUG ButtonsClosed ;;
       raise SystemExit).

End Program.

End PeasyPlayer.

Import PeasyPlayer.

(** ** Observations used by the statements *)

(** A channel's last trigger time, as a read of the defaultdict gives it. *)
Definition last_trigger (w : World) (input_id : string) : Q :=
  default 0%Q (last_input_times w !! input_id).

(** The commands the engine received, oldest first. *)
Fixpoint vlc_calls (t : list effect) : list vlc_call :=
  match t with
  | [] => []
  | Vlc c :: t' => c :: vlc_calls t'
  | _ :: t' => vlc_calls t'
  end.

#[global] Instance vlc_call_eq_dec : EqDecision vlc_call.
Proof. solve_decision. Defined.

(** How many times the engine received command [c]. *)
Definition fired (c : vlc_call) (w : World) : nat :=
  count_occ vlc_call_eq_dec (vlc_calls (trace w)) c.

(** The world in which [input_delay] runs its callback: the debug record
    is logged, the clock was read twice, and the channel carries the second
    reading. *)
Definition stamped (env : Env) (input_id : string) (w : World) : World :=
  set_last_input_times
    (<[input_id := clock env (S (clock_reads w))]> (last_input_times w))
    (set_clock_reads (S (S (clock_reads w)))
       (set_trace (trace w ++ [Log DEBUG (WasInput input_id)]) w)).

(** The world a suppressed trigger leaves: the debug record is logged, the
    clock was read once, and the defaultdict has stored its default for a
    channel it did not have. *)
Definition suppressed (input_id : string) (w : World) : World :=
  set_clock_reads (S (clock_reads w))
    (set_last_input_times
       (match last_input_times w !! input_id with
        | Some _ => last_input_times w
        | None => <[input_id := 0%Q]> (last_input_times w)
        end)
       (set_trace (trace w ++ [Log DEBUG (WasInput input_id)]) w)).

(** A sequence of edges delivered one after the other; a callback that
    raises ends it. *)
Fixpoint deliver_all (env : Env) (edges : list (button * edge)) : M unit :=
  match edges with
  | [] => ret tt
  | (b, e) :: rest => deliver env b e ;; deliver_all env rest
  end.

(** The two gestures of the play/pause button. *)
Definition hold_gesture : list (button * edge) :=
  [(BPause, Pressed); (BPause, Held); (BPause, Released)].

Definition tap_gesture : list (button * edge) :=
  [(BPause, Pressed); (BPause, Released)].

(** A method that never writes [last_input_times]. *)
Definition keeps_inputs {A} (m : M A) : Prop :=
  forall w, last_input_times (snd (m w)) = last_input_times w.

(** The [input_id], the delay and the gated action that
    [set_input_listeners] gives each button. *)
Definition channel_of (b : button) : string :=
  match b with
  | B1 | B2 | B3 | B4 | B5 | B6 => "movie"
  | BFastForward | BRewind | BPause => "control"
  end.

Definition delay_of (b : button) : Q :=
  match b with
  | B1 | B2 | B3 | B4 | B5 | B6 => movie_delay
  | BFastForward | BRewind | BPause => control_delay
  end.

Definition pressed_action (env : Env) (b : button) : M pyval :=
  match b with
  | B1 | B2 | B3 | B4 | B5 | B6 =>
      play_movies_from_folder env (button_key b) (Some true) (Some true)
  | BFastForward => fast_forward env 30
  | BRewind => rewind env 30
  | BPause => ret PyNone
  end.

(** A method that leaves channel [k]'s timestamp as it was. *)
Definition keeps_channel (k : string) {A} (m : M A) : Prop :=
  forall w, last_trigger (snd (m w)) k = last_trigger w k.

#[global] Instance button_eq_dec : EqDecision button.
Proof. solve_decision. Defined.

(** The world the inactivity timeout leaves when it fires at [tick_start]. *)
Definition reset_player (tick_start : Q) (w : World) : World :=
  set_last_action_time tick_start
    (set_trace
       (trace w ++ [Log INFO (InactivityTimeout (inactive_timeout w));
                    Vlc (set_media_list []); Vlc (set_playback_mode 0)])
       (set_lp_playback_mode 0 (set_lp_media_list [] w))).

(** A method that never raises. *)
Definition returns {A} (m : M A) : Prop :=
  forall w, exists a, fst (m w) = Ret a.

(** A file system on which listing a directory either succeeds or reports
    the directory missing. *)
Definition listable (env : Env) : Prop :=
  forall path e, fs env path = ListdirRaises e -> e = FileNotFoundError.

(** The world after an RFID check whose scan raised TypeError. *)
Definition rfid_warned (w : World) : World :=
  set_trace (trace w ++ [Log WARNING ErrorScanningRfid]) (set_scans (S (scans w)) w).

(** ** Concrete environments for the examples *)

(** A clock whose readings are the elements of [l], then [d] for ever. *)
Definition readings (l : list Q) (d : Q) : nat -> Q := fun n => nth n l d.

(** An engine that reports state [st] and position [pos], a reader with no
    card, a file system [dirs], and a shuffle that reverses. *)
Definition quiet_env (clk : nat -> Q) (st pos : Z) (dirs : string -> listing) : Env :=
  {| clock := clk;
     engine_state := fun _ => st;
     engine_position := fun _ => pos;
     rfid := fun _ => ScanReturns false None;
     fs := dirs;
     rng := fun _ l => rev l |}.

Definition no_dirs : string -> listing := fun _ => ListdirRaises FileNotFoundError.

(** Started at 990; the clock then reads 1000, 1000, 1001, 1001, ... *)
Definition env_exact : Env :=
  quiet_env (readings [990; 1000; 1000]%Q 1001) 3 0 no_dirs.

(** Started at 990; the clock then reads 1000, 1000, 1002.5, 1002.5, ... *)
Definition env_apart : Env :=
  quiet_env (readings [990; 1000; 1000]%Q (2005 # 2)) 3 0 no_dirs.

(** Fast forward pressed at 1000, while play/pause is down; its hold
    threshold is reached at 1000.5 and it is released at 1010. *)
Definition env_hold_after_forward : Env :=
  quiet_env (readings [990; 1000; 1000; 2001 # 2]%Q 1010) 3 0 no_dirs.

(** A stick with two folders. *)
Definition usb_dirs : string -> listing := fun path =>
  if String.eqb path "/media/usb/b1" then Entries ["a.mp4"; "b.txt"; "c.mkv"]
  else if String.eqb path "/media/usb/b2" then Entries ["d.avi"]
  else ListdirRaises FileNotFoundError.

(** Button b1 pressed at 1000 and button b2 pressed at 1001. *)
Definition env_two_buttons : Env :=
  quiet_env (readings [990; 1000; 1000; 1000]%Q 1001) 3 0 usb_dirs.

(** Button b2 pressed at 1001, nothing before it. *)
Definition env_one_button : Env :=
  quiet_env (readings [990]%Q 1001) 3 0 usb_dirs.

(** Started at 0; a looping list is played at 1000. *)
Definition env_idle : Env := quiet_env (readings [0]%Q 1000) 3 0 usb_dirs.

Definition idle_since_1000 : World :=
  snd (play_media_list env_idle ["/media/usb/b1/a.mp4"] true (init env_idle)).

(** A directory that exists but may not be read. *)
Definition locked_dirs : string -> listing := fun path =>
  if String.eqb path "/media/usb/b1" then ListdirRaises PermissionError
  else ListdirRaises FileNotFoundError.

Definition env_locked : Env := quiet_env (readings [990]%Q 1000) 3 0 locked_dirs.

(** The relative directory of the scenario. *)
Definition b1_dirs : string -> listing := fun path =>
  if String.eqb path "b1" then Entries ["a.mp4"; "b.txt"; "c.mkv"]
  else ListdirRaises FileNotFoundError.

Definition env_b1 : Env := quiet_env (readings [990]%Q 1000) 3 0 b1_dirs.

(** The position is 60000 ms when fast forward reads it, 90040 ms when
    rewind reads it (the seek to 90000 plus 40 ms of playback), and 60040 ms
    after that. *)
Definition env_seek : Env :=
  {| clock := readings [990]%Q 1000;
     engine_state := fun _ => 3%Z;
     engine_position := fun n => nth n [60000; 90040]%Z 60040%Z;
     rfid := fun _ => ScanReturns false None;
     fs := no_dirs;
     rng := fun _ l => rev l |}.

(** A reader on which every scan fails. *)
Definition env_deaf : Env :=
  {| clock := fun n => inject_Z (Z.of_nat n);
     engine_state := fun _ => 3%Z;
     engine_position := fun _ => 0%Z;
     rfid := fun _ => ScanRaises TypeError;
     fs := usb_dirs;
     rng := fun _ l => rev l |}.



(** The world in which the RFID check consults the gate for a scanned
    card: the scan is counted and the raw and the stripped folder name are
    logged. *)
Definition scanned_world (payload : string) (w : World) : World :=
  let w0 := set_scans (S (scans w)) w in
  let w1 := set_trace (trace w0 ++ [Log DEBUG (RawFolderName (Some payload))]) w0 in
  set_trace (trace w1 ++ [Log INFO (RfidScanned (strip payload))]) w1.

(** The target of the latest seek the engine received, if any. *)
Fixpoint last_seek_of (calls : list vlc_call) (acc : option Z) : option Z :=
  match calls with
  | [] => acc
  | set_time t :: rest => last_seek_of rest (Some t)
  | _ :: rest => last_seek_of rest acc
  end.

Definition last_seek (w : World) : option Z := last_seek_of (vlc_calls (trace w)) None.

(** A media player that honours a seek by clamping it to the clip:
    [clamp duration t] is where a seek to [t] ends. *)
Definition clamp (duration t : Z) : Z := Z.max 0 (Z.min duration t).

(** A clip of 60 s at 50 s: the engine reports 50000 ms, then where the
    seek of the fast forward ended, then where the seek of the rewind
    ended. *)
Definition env_short_clip : Env :=
  {| clock := readings [990]%Q 1000;
     engine_state := fun _ => 3%Z;
     engine_position := fun n =>
       nth n [50000; clamp 60000 (50000 + 30 * 1000)]%Z
           (clamp 60000 (clamp 60000 (50000 + 30 * 1000) - 30 * 1000));
     rfid := fun _ => ScanReturns false None;
     fs := no_dirs;
     rng := fun _ l => rev l |}.

(** The part of an iteration before the RFID check: the clock was read for
    the start of the tick, then the inactivity timeout and the default
    movie. *)
Definition before_rfid (env : Env) (w : World) : res flow * World :=
  (inactivity_timeout (clock env (clock_reads w)) ;; default_movie env)
    (set_clock_reads (S (clock_reads w)) w).

(** The SPI bus fails with an I/O error at the second scan. *)
Definition env_bus_error : Env :=
  {| clock := fun n => inject_Z (Z.of_nat n);
     engine_state := fun _ => 3%Z;
     engine_position := fun _ => 0%Z;
     rfid := fun n => if (n =? 0)%nat then ScanRaises TypeError else ScanRaises OSError;
     fs := usb_dirs;
     rng := fun _ l => rev l |}.

(** The warnings logged, oldest first. *)
Fixpoint warnings (t : list effect) : list logmsg :=
  match t with
  | [] => []
  | Log WARNING msg :: t' => msg :: warnings t'
  | _ :: t' => warnings t'
  end.
(** ** Further observations *)

(** A method that leaves the observation [f] of the world as it was. *)
Definition keeps_field {B} (f : World -> B) {A} (m : M A) : Prop :=
  forall w, f (snd (m w)) = f w.

(** The file system lists [path]. *)
Definition lists (env : Env) (path : string) (names : list string) : Prop :=
  fs env path = Entries names.

(** The shuffle rearranges and does nothing else, as [random.shuffle]
    does. *)
Definition shuffle_permutes (env : Env) : Prop :=
  forall k l, Permutation (rng env k l) l.

(** The clock never runs backwards. *)
Definition clock_monotone (env : Env) : Prop :=
  forall i j, (i <= j)%nat -> (clock env i <= clock env j)%Q.

(** The durations the program slept for, oldest first. *)
Fixpoint sleeps (t : list effect) : list Q :=
  match t with
  | [] => []
  | Sleep d :: t' => d :: sleeps t'
  | _ :: t' => sleeps t'
  end.

(** What [check_rfid] does with the pair a scan returned (the rest of its
    try block). *)
Definition after_scan (env : Env) (r : bool * option string) : M unit :=
  let '(scanned, folder) := r in
  logging DEBUG (RawFolderName folder) ;;
  if (scanned : bool) then
    folder <- match folder with
              | Some f => ret (strip f)
              | None => raise AttributeError
              end ;;
    logging INFO (RfidScanned folder) ;;
    input_delay env (play_movies_from_folder env folder (Some true) (Some true))
      "rfid" 1 ;;
    ret tt
  else ret tt.

(** What happens to the player: an edge of a button is delivered, or the
    loop runs one iteration. *)
Inductive event :=
| Edge (b : button) (e : edge)
| Tick.

Definition run_event (env : Env) (ev : event) : M unit :=
  match ev with
  | Edge b e => deliver env b e ;; ret tt
  | Tick => tick env
  end.

(** Events one after the other; the first that raises ends the run. *)
Fixpoint run_events (env : Env) (evs : list event) : M unit :=
  match evs with
  | [] => ret tt
  | ev :: rest => run_event env ev ;; run_events env rest
  end.

(** Whether the latest hold or release edge of play/pause among [evs] was a
    hold ([flag] if there is none). *)
Definition held_after (evs : list event) (flag : bool) : bool :=
  fold_left
    (fun fl ev =>
       match ev with
       | Edge BPause Held => true
       | Edge BPause Released => false
       | _ => fl
       end)
    evs flag.

(** The effects of the shutdown handler of [start], in order. *)
Definition shutdown_effects : list effect :=
  [Log INFO ClosingApplication; ReaderCleanup;
   ButtonClose "b1"; ButtonClose "b2"; ButtonClose "b3"; ButtonClose "b4";
   ButtonClose "b5"; ButtonClose "b6"; ButtonClose "fast_forward";
   ButtonClose "rewind"; ButtonClose "pause";
   Log DEBUG ButtonsClosed].

(** A method that polls the RFID reader at most [k] times. *)
Definition polls (k : nat) {A} (m : M A) : Prop :=
  forall w, (scans w <= scans (snd (m w)) <= scans w + k)%nat.

(** A method after which channel [k]'s timestamp is not earlier than
    before. *)
Definition grows (k : string) {A} (m : M A) : Prop :=
  forall w, (last_trigger w k <= last_trigger (snd (m w)) k)%Q.

(** Started at 990; the clock then reads 1000, 1000 and 1002 for ever. *)
Definition env_locked_retry : Env :=
  quiet_env (readings [990; 1000; 1000]%Q 1002) 3 0 locked_dirs.

(** The interrupt arrives during the third scan. *)
Definition env_interrupt : Env :=
  {| clock := fun n => inject_Z (Z.of_nat n);
     engine_state := fun _ => 3%Z;
     engine_position := fun _ => 0%Z;
     rfid := fun n => if (n <? 2)%nat then ScanReturns false None
                      else ScanRaises KeyboardInterrupt;
     fs := usb_dirs;
     rng := fun _ l => rev l |}.

(** An iteration started at 1000; the clock reads 1000.04, as a double,
    when the remainder is computed. *)
Definition env_fast_tick : Env :=
  quiet_env (readings [990]%Q (1099555608241111 # 1099511627776)) 3 0 usb_dirs.

(** The engine is between two states at the first look of an iteration and
    playing at the second. *)
Definition env_transition : Env :=
  {| clock := readings [990]%Q 1000;
     engine_state := fun n => if (n =? 0)%nat then 0%Z else 3%Z;
     engine_position := fun _ => 0%Z;
     rfid := fun _ => ScanReturns true (Some "b1");
     fs := usb_dirs;
     rng := fun _ l => rev l |}.

(** A home directory with two default clips; the engine has ended. *)
Definition home_dirs : string -> listing := fun path =>
  if String.eqb path "/home/pi/peasyplayer/" then Entries ["intro.mp4"; "notes.txt"; "loop.mkv"]
  else ListdirRaises FileNotFoundError.

Definition env_ended : Env := quiet_env (readings [990]%Q 1000) 6 0 home_dirs.

(** Button b2 pressed for the first time at 1000. *)
Definition env_press : Env :=
  quiet_env (readings [990]%Q 1000) 3 0 usb_dirs.

(** The no-break space U+00A0. *)
Definition nbsp : string := String (ascii_of_nat 194) (String (ascii_of_nat 160) "").

(** "b2" between a blank and a no-break space, a blank and a newline. *)
Definition card_payload : string :=
  " b2" +:+ nbsp +:+ String " " (String (ascii_of_nat 10) "").

(** A card for folder b2 lies on the reader at 1000; its payload is padded
    with a blank, a no-break space (U+00A0), a blank and a newline. *)
Definition env_card : Env :=
  {| clock := readings [990]%Q 1000;
     engine_state := fun _ => 3%Z;
     engine_position := fun _ => 0%Z;
     rfid := fun _ => ScanReturns true (Some card_payload);
     fs := usb_dirs;
     rng := fun _ l => rev l |}.

(** Started at 0 and idle since: the clock reads 18001 at the next
    tick. *)
Definition env_timeout : Env := quiet_env (readings [0]%Q 18001) 3 0 usb_dirs.

(** ** Basic facts *)

Lemma Qltb_lt (x y : Q) : Qltb x y = true <-> (x < y)%Q.
Proof.
  unfold Qltb. rewrite negb_true_iff, <- not_true_iff_false, Qle_bool_iff.
  split; [apply Qnot_le_lt | apply Qlt_not_le].
Qed.

Lemma Qltb_ge (x y : Q) : Qltb x y = false <-> (y <= x)%Q.
Proof.
  unfold Qltb. rewrite negb_false_iff. apply Qle_bool_iff.
Qed.

Lemma vlc_calls_app (t1 t2 : list effect) :
  vlc_calls (t1 ++ t2) = vlc_calls t1 ++ vlc_calls t2.
Proof.
  induction t1 as [|e t1 IH]; simpl; [reflexivity|].
  destruct e; simpl; rewrite ?IH; reflexivity.
Qed.

(** ** Running a bind *)

Lemma bind_ret_run {A C} (m : M A) (k : A -> M C) w a w1 :
  m w = (Ret a, w1) -> bind m k w = k a w1.
Proof. intros H. unfold bind. rewrite H. reflexivity. Qed.

Lemma bind_raise_run {A C} (m : M A) (k : A -> M C) w e w1 :
  m w = (Raise e, w1) -> bind m k w = (Raise e, w1).
Proof. intros H. unfold bind. rewrite H. reflexivity. Qed.

(** ** The debouncer *)

Lemma input_delay_fires env callback input_id delay w :
  (last_trigger w input_id + delay < clock env (clock_reads w))%Q ->
  input_delay env callback input_id delay w = callback (stamped env input_id w).
Proof.
  intros Hlt. apply Qltb_lt in Hlt.
  unfold last_trigger in Hlt.
  unfold input_delay, bind, logging, emit, last_input_times_getitem, time_time,
    last_input_times_setitem, modify, stamped. simpl.
  destruct (last_input_times w !! input_id) as [v|] eqn:Hlk; simpl in *;
    rewrite Hlt; simpl; [reflexivity|].
  unfold set_last_input_times; simpl. rewrite insert_insert_eq. reflexivity.
Qed.

Lemma input_delay_suppresses env callback input_id delay w :
  (clock env (clock_reads w) <= last_trigger w input_id + delay)%Q ->
  input_delay env callback input_id delay w = (Ret PyNone, suppressed input_id w).
Proof.
  intros Hge. apply Qltb_ge in Hge.
  unfold last_trigger in Hge.
  unfold input_delay, bind, logging, emit, last_input_times_getitem, time_time,
    suppressed. simpl.
  destruct (last_input_times w !! input_id) as [v|] eqn:Hlk; simpl in *;
    rewrite Hge; reflexivity.
Qed.

(** Every trigger either fires or is suppressed. *)
Lemma input_delay_cases env callback input_id delay w :
  ((last_trigger w input_id + delay < clock env (clock_reads w))%Q /\
   input_delay env callback input_id delay w = callback (stamped env input_id w)) \/
  ((clock env (clock_reads w) <= last_trigger w input_id + delay)%Q /\
   input_delay env callback input_id delay w = (Ret PyNone, suppressed input_id w)).
Proof.
  destruct (Qlt_le_dec (last_trigger w input_id + delay) (clock env (clock_reads w)))
    as [Hlt|Hge].
  - left. split; [exact Hlt | apply input_delay_fires; exact Hlt].
  - right. split; [exact Hge | apply input_delay_suppresses; exact Hge].
Qed.

Lemma last_trigger_suppressed input_id w k :
  last_trigger (suppressed input_id w) k = last_trigger w k.
Proof.
  unfold last_trigger, suppressed; simpl.
  destruct (last_input_times w !! input_id) as [v|] eqn:Hlk; [reflexivity|].
  destruct (decide (input_id = k)) as [->|Hne].
  - rewrite lookup_insert_eq, Hlk. reflexivity.
  - rewrite lookup_insert_ne by assumption. reflexivity.
Qed.

Lemma last_trigger_stamped env input_id w :
  last_trigger (stamped env input_id w) input_id = clock env (S (clock_reads w)).
Proof. unfold last_trigger, stamped; simpl. rewrite lookup_insert_eq. reflexivity. Qed.

Lemma last_trigger_stamped_ne env input_id w k :
  input_id <> k -> last_trigger (stamped env input_id w) k = last_trigger w k.
Proof.
  intros Hne. unfold last_trigger, stamped; simpl.
  rewrite lookup_insert_ne by assumption. reflexivity.
Qed.

Lemma vlc_calls_suppressed input_id w :
  vlc_calls (trace (suppressed input_id w)) = vlc_calls (trace w).
Proof. unfold suppressed; simpl. rewrite vlc_calls_app; simpl. apply app_nil_r. Qed.

Lemma vlc_calls_stamped env input_id w :
  vlc_calls (trace (stamped env input_id w)) = vlc_calls (trace w).
Proof. unfold stamped; simpl. rewrite vlc_calls_app; simpl. apply app_nil_r. Qed.

(** A call on the engine changes the trace and, for the two setters, the
    list player's settings; nothing else. *)
Lemma vlc_run c w :
  fst (vlc c w) = Ret PyNone /\
  vlc_calls (trace (snd (vlc c w))) = vlc_calls (trace w) ++ [c] /\
  last_input_times (snd (vlc c w)) = last_input_times w /\
  clock_reads (snd (vlc c w)) = clock_reads w /\
  play_pause_was_held (snd (vlc c w)) = play_pause_was_held w.
Proof.
  unfold vlc; simpl. rewrite vlc_calls_app.
  destruct c; simpl; repeat split; reflexivity.
Qed.

Lemma fired_after c w w' :
  vlc_calls (trace w') = vlc_calls (trace w) ++ [c] ->
  fired c w' = S (fired c w).
Proof.
  intros H. unfold fired. rewrite H, count_occ_app. simpl.
  destruct (vlc_call_eq_dec c c); [lia | congruence].
Qed.

Lemma fired_same c w w' :
  vlc_calls (trace w') = vlc_calls (trace w) -> fired c w' = fired c w.
Proof. intros H. unfold fired. rewrite H. reflexivity. Qed.

(** A trigger whose action is an engine command: what it leaves when it
    fires. *)
Lemma trigger_fires env c input_id delay w :
  (last_trigger w input_id + delay < clock env (clock_reads w))%Q ->
  let w' := snd (input_delay env (vlc c) input_id delay w) in
  fst (input_delay env (vlc c) input_id delay w) = Ret PyNone /\
  vlc_calls (trace w') = vlc_calls (trace w) ++ [c] /\
  last_trigger w' input_id = clock env (S (clock_reads w)) /\
  clock_reads w' = S (S (clock_reads w)) /\
  play_pause_was_held w' = play_pause_was_held w.
Proof.
  intros Hlt w'. subst w'. rewrite (input_delay_fires _ _ _ _ _ Hlt).
  destruct (vlc_run c (stamped env input_id w)) as (Hr & Ht & Hl & Hc & Hh).
  split; [exact Hr|]. split; [|split; [|split]].
  - rewrite Ht, vlc_calls_stamped. reflexivity.
  - unfold last_trigger. rewrite Hl. apply last_trigger_stamped.
  - rewrite Hc. reflexivity.
  - rewrite Hh. reflexivity.
Qed.

Lemma trigger_suppressed env c input_id delay w :
  (clock env (clock_reads w) <= last_trigger w input_id + delay)%Q ->
  let w' := snd (input_delay env (vlc c) input_id delay w) in
  fst (input_delay env (vlc c) input_id delay w) = Ret PyNone /\
  vlc_calls (trace w') = vlc_calls (trace w) /\
  (forall k, last_trigger w' k = last_trigger w k) /\
  clock_reads w' = S (clock_reads w) /\
  play_pause_was_held w' = play_pause_was_held w.
Proof.
  intros Hge w'. subst w'. rewrite (input_delay_suppresses _ _ _ _ _ Hge). simpl.
  split; [reflexivity|]. split; [apply vlc_calls_suppressed|].
  split; [apply last_trigger_suppressed|]. split; reflexivity.
Qed.


(** C1 (as the code has it). For every channel, delay, callback and world,
    with [last] the channel's timestamp, [now] the clock reading of the
    test and [stamp] the next clock reading: when [delay < now - last] the
    trigger runs the callback in a world where the channel's timestamp is
    [stamp], and returns what the callback returns; when
    [now - last <= delay] it returns None, runs nothing on the engine and
    leaves every channel's timestamp as it was. Of two successive triggers
    of an engine command on one channel, the first of which fires, the
    second fires exactly when it is tested more than [delay] after the
    recorded timestamp: one command is sent when the separation is at most
    [delay], two when it is more. *)
Theorem input_delay_strict_cooldown env callback c input_id delay w :
  let last := last_trigger w input_id in
  let now := clock env (clock_reads w) in
  let stamp := clock env (S (clock_reads w)) in
  let now2 := clock env (S (S (clock_reads w))) in
  ((delay < now - last)%Q ->
     input_delay env callback input_id delay w
       = callback (stamped env input_id w) /\
     last_trigger (stamped env input_id w) input_id = stamp /\
     vlc_calls (trace (stamped env input_id w)) = vlc_calls (trace w)) /\
  ((now - last <= delay)%Q ->
     fst (input_delay env callback input_id delay w) = Ret PyNone /\
     (forall k, last_trigger (snd (input_delay env callback input_id delay w)) k
                = last_trigger w k) /\
     vlc_calls (trace (snd (input_delay env callback input_id delay w)))
       = vlc_calls (trace w)) /\
  ((delay < now - last)%Q ->
     let w1 := snd (input_delay env (vlc c) input_id delay w) in
     let w2 := snd (input_delay env (vlc c) input_id delay w1) in
     ((now2 - stamp <= delay)%Q -> fired c w2 = S (fired c w)) /\
     ((delay < now2 - stamp)%Q -> fired c w2 = S (S (fired c w)))).
Proof.
  intros last now stamp now2. subst last now stamp now2.
  split; [|split].
  - intros H.
    assert (Hlt : (last_trigger w input_id + delay < clock env (clock_reads w))%Q)
      by lra.
    split; [apply input_delay_fires; exact Hlt|].
    split; [apply last_trigger_stamped | apply vlc_calls_stamped].
  - intros H.
    assert (Hge : (clock env (clock_reads w) <= last_trigger w input_id + delay)%Q)
      by lra.
    rewrite (input_delay_suppresses _ _ _ _ _ Hge). simpl.
    split; [reflexivity|].
    split; [intros k; apply last_trigger_suppressed | apply vlc_calls_suppressed].
  - intros H w1 w2.
    assert (Hlt : (last_trigger w input_id + delay < clock env (clock_reads w))%Q)
      by lra.
    destruct (trigger_fires env c input_id delay w Hlt) as (_ & Ht & Hl & Hc & _).
    fold w1 in Ht, Hl, Hc.
    split; intros H2.
    + assert (Hge : (clock env (clock_reads w1) <= last_trigger w1 input_id + delay)%Q)
        by (rewrite Hl, Hc; lra).
      destruct (trigger_suppressed env c input_id delay w1 Hge) as (_ & Ht2 & _).
      fold w2 in Ht2.
      rewrite (fired_same c w1 w2 Ht2). apply fired_after. exact Ht.
    + assert (Hlt2 : (last_trigger w1 input_id + delay < clock env (clock_reads w1))%Q)
        by (rewrite Hl, Hc; lra).
      destruct (trigger_fires env c input_id delay w1 Hlt2) as (_ & Ht2 & _).
      fold w2 in Ht2.
      rewrite (fired_after c w1 w2 Ht2). f_equal. apply fired_after. exact Ht.
Qed.

(** The pause button released at 1000 and again at 1002.5, cooldown 1: the
    first release is past the cooldown of the fresh channel, the second is
    past the cooldown of the first, and the engine is paused twice. *)
Lemma input_delay_strict_cooldown_witness :
  let w1 := snd (input_delay env_apart (vlc lp_pause) "control" 1 (init env_apart)) in
  let w2 := snd (input_delay env_apart (vlc lp_pause) "control" 1 w1) in
  fired lp_pause w2 = 2%nat.
Proof.
  intros w1 w2.
  destruct (input_delay_strict_cooldown env_apart (vlc lp_pause) lp_pause "control" 1
              (init env_apart)) as (_ & _ & H).
  assert (H0 : (1 < clock env_apart (clock_reads (init env_apart))
                    - last_trigger (init env_apart) "control")%Q) by reflexivity.
  destruct (H H0) as (_ & H2).
  apply H2. reflexivity.
Defined.

(** C1 as stated fails at the boundary. After a release fired and stamped
    at 1000, a second release read at 1001 satisfies
    [now - last >= cooldown] for the cooldown 1, yet it is suppressed: the
    engine has still been paused once and the timestamp is still 1000. And
    the release that fired returned None, not true. *)
Lemma input_delay_boundary_counterexample :
  let w1 := snd (input_delay env_exact (vlc lp_pause) "control" 1 (init env_exact)) in
  let r2 := input_delay env_exact (vlc lp_pause) "control" 1 w1 in
  (clock env_exact (clock_reads w1) - last_trigger w1 "control" >= 1)%Q /\
  fired lp_pause w1 = 1%nat /\
  fired lp_pause (snd r2) = 1%nat /\
  last_trigger (snd r2) "control" = 1000%Q /\
  fst (input_delay env_exact (vlc lp_pause) "control" 1 (init env_exact))
    = Ret PyNone.
Proof.
  vm_compute. repeat split. discriminate.
Qed.

(** ** The first trigger of a channel *)

(** C9 (as the code has it). A channel that was never triggered reads as
    timestamp 0.0, the default of the defaultdict, so its first trigger
    fires exactly when [delay < now]: it runs the callback when the clock
    reads more than the delay, and is suppressed, leaving 0 as the
    channel's timestamp, when the clock reads at most the delay. *)
Theorem first_trigger_fires_iff_clock_past_delay env callback input_id delay w :
  last_input_times w !! input_id = None ->
  let now := clock env (clock_reads w) in
  ((delay < now)%Q ->
     input_delay env callback input_id delay w
       = callback (stamped env input_id w)) /\
  ((now <= delay)%Q ->
     fst (input_delay env callback input_id delay w) = Ret PyNone /\
     vlc_calls (trace (snd (input_delay env callback input_id delay w)))
       = vlc_calls (trace w) /\
     last_trigger (snd (input_delay env callback input_id delay w)) input_id = 0%Q).
Proof.
  intros Hnone now. subst now.
  assert (Hlast : last_trigger w input_id = 0%Q)
    by (unfold last_trigger; rewrite Hnone; reflexivity).
  split; intros H.
  - apply input_delay_fires. rewrite Hlast. lra.
  - assert (Hge : (clock env (clock_reads w) <= last_trigger w input_id + delay)%Q)
      by (rewrite Hlast; lra).
    rewrite (input_delay_suppresses _ _ _ _ _ Hge). simpl.
    split; [reflexivity|]. split; [apply vlc_calls_suppressed|].
    rewrite last_trigger_suppressed. exact Hlast.
Qed.

(** The first release of the pause button, read at 1000 with cooldown 1,
    pauses the engine. *)
Lemma first_trigger_fires_iff_clock_past_delay_witness :
  vlc_calls (trace (snd (input_delay env_exact (vlc lp_pause) "control" 1
                           (init env_exact))))
  = [set_fullscreen true; lp_pause].
Proof.
  destruct (first_trigger_fires_iff_clock_past_delay env_exact (vlc lp_pause)
              "control" 1 (init env_exact)) as (H & _); [reflexivity|].
  rewrite H; reflexivity.
Defined.

(** C9 as stated fails for a cooldown the clock has not passed: on a fresh
    channel, with the clock at 1000 and a cooldown of 2000, the first
    trigger is suppressed. *)
Lemma first_trigger_counterexample :
  let r := input_delay env_exact (vlc lp_pause) "rfid" 2000 (init env_exact) in
  last_input_times (init env_exact) !! "rfid" = None /\
  fst r = Ret PyNone /\
  fired lp_pause (snd r) = 0%nat.
Proof. vm_compute. repeat split. Qed.

(** ** The hold/release disambiguator *)

Lemma deliver_pause_pressed env w : deliver env BPause Pressed w = (Ret PyNone, w).
Proof. reflexivity. Qed.

(** A hold edge raises the flag before the gate is consulted. *)
Lemma held_run env w :
  deliver env BPause Held w
  = input_delay env (vlc lp_stop) "control" control_delay
      (set_play_pause_was_held true w).
Proof. reflexivity. Qed.

(** A release edge with the flag up lowers it and does nothing else. *)
Lemma released_after_hold env w :
  play_pause_was_held w = true ->
  deliver env BPause Released w = (Ret PyNone, set_play_pause_was_held false w).
Proof.
  intros H. unfold deliver; simpl.
  unfold play_pause_released, bind, get, modify, ret. rewrite H. reflexivity.
Qed.

Lemma released_without_hold env w :
  play_pause_was_held w = false ->
  deliver env BPause Released w
  = input_delay env (vlc lp_pause) "control" control_delay w.
Proof.
  intros H. unfold deliver; simpl.
  unfold play_pause_released, bind, get. rewrite H. reflexivity.
Qed.

Lemma deliver_all_cons env b e rest w :
  deliver_all env ((b, e) :: rest) w
  = match deliver env b e w with
    | (Ret _, w') => deliver_all env rest w'
    | (Raise x, w') => (Raise x, w')
    end.
Proof. reflexivity. Qed.

(** The gate never touches the held flag. *)
Lemma trigger_keeps_flag env c input_id delay w :
  play_pause_was_held (snd (input_delay env (vlc c) input_id delay w))
  = play_pause_was_held w.
Proof.
  destruct (input_delay_cases env (vlc c) input_id delay w) as [[Hlt _]|[Hge _]].
  - apply (trigger_fires env c input_id delay w Hlt).
  - apply (trigger_suppressed env c input_id delay w Hge).
Qed.

Lemma trigger_returns_none env c input_id delay w :
  fst (input_delay env (vlc c) input_id delay w) = Ret PyNone.
Proof.
  destruct (input_delay_cases env (vlc c) input_id delay w) as [[Hlt _]|[Hge _]].
  - apply (trigger_fires env c input_id delay w Hlt).
  - apply (trigger_suppressed env c input_id delay w Hge).
Qed.

(** Both gestures take the idle state to the idle state, whatever the gate
    decides: every gesture of a run starts with the flag down. *)
Lemma gestures_end_idle env w :
  play_pause_was_held w = false ->
  play_pause_was_held (snd (deliver_all env hold_gesture w)) = false /\
  play_pause_was_held (snd (deliver_all env tap_gesture w)) = false.
Proof.
  intros Hidle. split.
  - unfold hold_gesture.
    rewrite deliver_all_cons, deliver_pause_pressed, deliver_all_cons, held_run.
    pose proof (trigger_keeps_flag env lp_stop "control" control_delay
                  (set_play_pause_was_held true w)) as Hh.
    pose proof (trigger_returns_none env lp_stop "control" control_delay
                  (set_play_pause_was_held true w)) as Hr.
    destruct (input_delay env (vlc lp_stop) "control" control_delay
                (set_play_pause_was_held true w)) as [r w1].
    simpl in Hr, Hh. subst r.
    rewrite deliver_all_cons, (released_after_hold env w1 Hh). reflexivity.
  - unfold tap_gesture.
    rewrite deliver_all_cons, deliver_pause_pressed, deliver_all_cons,
      (released_without_hold env w Hidle).
    pose proof (trigger_keeps_flag env lp_pause "control" control_delay w) as Hh.
    pose proof (trigger_returns_none env lp_pause "control" control_delay w) as Hr.
    destruct (input_delay env (vlc lp_pause) "control" control_delay w) as [r w1].
    simpl in Hr, Hh. subst r. simpl. congruence.
Qed.

(** C2. From the idle state (flag down), in which every gesture of the
    play/pause button starts and ends, when the control channel's cooldown
    permits the event that acts: a press held to the threshold and released
    sends the engine exactly one command, stop, and no pause, whatever the
    clock reads at the release; a press released before the threshold sends
    exactly one command, pause. *)
Theorem play_pause_exactly_one_action env w :
  play_pause_was_held w = false ->
  (control_delay < clock env (clock_reads w) - last_trigger w "control")%Q ->
  (let w' := snd (deliver_all env hold_gesture w) in
   fst (deliver_all env hold_gesture w) = Ret tt /\
   vlc_calls (trace w') = vlc_calls (trace w) ++ [lp_stop] /\
   play_pause_was_held w' = false) /\
  (let w' := snd (deliver_all env tap_gesture w) in
   fst (deliver_all env tap_gesture w) = Ret tt /\
   vlc_calls (trace w') = vlc_calls (trace w) ++ [lp_pause] /\
   play_pause_was_held w' = false).
Proof.
  intros Hidle Hopen.
  assert (Hlt : (last_trigger w "control" + control_delay
                 < clock env (clock_reads w))%Q) by lra.
  split.
  - unfold hold_gesture.
    rewrite deliver_all_cons, deliver_pause_pressed, deliver_all_cons, held_run.
    destruct (trigger_fires env lp_stop "control" control_delay
                (set_play_pause_was_held true w) Hlt) as (Hr & Ht & _ & _ & Hh).
    destruct (input_delay env (vlc lp_stop) "control" control_delay
                (set_play_pause_was_held true w)) as [r w1].
    simpl in Hr, Ht, Hh. subst r.
    rewrite deliver_all_cons, (released_after_hold env w1 Hh). simpl.
    split; [reflexivity|]. split; [exact Ht | reflexivity].
  - unfold tap_gesture.
    rewrite deliver_all_cons, deliver_pause_pressed, deliver_all_cons,
      (released_without_hold env w Hidle).
    destruct (trigger_fires env lp_pause "control" control_delay w Hlt)
      as (Hr & Ht & _ & _ & Hh).
    destruct (input_delay env (vlc lp_pause) "control" control_delay w) as [r w1].
    simpl in Hr, Ht, Hh. subst r. simpl.
    split; [reflexivity|]. split; [exact Ht | congruence].
Qed.

(** From a fresh player with the clock at 1000, the hold gesture stops the
    engine and the tap gesture pauses it. *)
Lemma play_pause_exactly_one_action_witness :
  vlc_calls (trace (snd (deliver_all env_exact hold_gesture (init env_exact))))
    = [set_fullscreen true; lp_stop] /\
  vlc_calls (trace (snd (deliver_all env_exact tap_gesture (init env_exact))))
    = [set_fullscreen true; lp_pause].
Proof.
  destruct (play_pause_exactly_one_action env_exact (init env_exact))
    as ((_ & H1 & _) & (_ & H2 & _)); [reflexivity | reflexivity |].
  split; [exact H1 | exact H2].
Defined.

(** C10. From the idle state, when the hold threshold is reached while the
    control channel's cooldown has not elapsed, the hold gesture sends the
    engine no command at all: stop is suppressed by the gate, the flag is
    raised all the same, and the release only lowers it, whatever the clock
    reads by then. *)
Theorem hold_in_cooldown_fires_nothing env w :
  play_pause_was_held w = false ->
  (clock env (clock_reads w) - last_trigger w "control" <= control_delay)%Q ->
  let w1 := snd (deliver env BPause Held w) in
  let w' := snd (deliver_all env hold_gesture w) in
  vlc_calls (trace w1) = vlc_calls (trace w) /\
  play_pause_was_held w1 = true /\
  fst (deliver_all env hold_gesture w) = Ret tt /\
  vlc_calls (trace w') = vlc_calls (trace w) /\
  play_pause_was_held w' = false.
Proof.
  intros Hidle Hclosed.
  assert (Hge : (clock env (clock_reads w)
                 <= last_trigger w "control" + control_delay)%Q) by lra.
  intros w1 w'. subst w1 w'. unfold hold_gesture.
  rewrite deliver_all_cons, deliver_pause_pressed, deliver_all_cons, held_run.
  destruct (trigger_suppressed env lp_stop "control" control_delay
              (set_play_pause_was_held true w) Hge) as (Hr & Ht & _ & _ & Hh).
  destruct (input_delay env (vlc lp_stop) "control" control_delay
              (set_play_pause_was_held true w)) as [r w1].
  simpl in Hr, Ht, Hh. subst r.
  rewrite deliver_all_cons, (released_after_hold env w1 Hh). simpl.
  split; [exact Ht|]. split; [exact Hh|]. split; [reflexivity|].
  split; [exact Ht | reflexivity].
Qed.

(** Fast forward is pressed at 1000 while play/pause is down; the hold
    threshold is reached at 1000.5, inside the control cooldown, and the
    button is released at 1010, long after it: the engine receives the
    seek of the fast forward and nothing else. *)
Lemma hold_in_cooldown_fires_nothing_witness :
  let w := snd (deliver env_hold_after_forward BFastForward Pressed
                  (init env_hold_after_forward)) in
  let w' := snd (deliver_all env_hold_after_forward hold_gesture w) in
  vlc_calls (trace w') = [set_fullscreen true; set_time 30000] /\
  (control_delay < clock env_hold_after_forward (clock_reads w')
                   - last_trigger w' "control")%Q.
Proof.
  intros w w'.
  destruct (hold_in_cooldown_fires_nothing env_hold_after_forward w)
    as (_ & _ & _ & H & _).
  - reflexivity.
  - vm_compute. discriminate.
  - subst w'. split; [rewrite H; reflexivity | reflexivity].
Defined.

(** ** Methods that leave the channels' timestamps alone *)

Lemma keeps_ret {A} (a : A) : keeps_inputs (ret a).
Proof. intros w. reflexivity. Qed.

Lemma keeps_raise {A} (e : exn) : keeps_inputs (@raise A e).
Proof. intros w. reflexivity. Qed.

Lemma keeps_bind {A B} (m : M A) (k : A -> M B) :
  keeps_inputs m -> (forall a, keeps_inputs (k a)) -> keeps_inputs (bind m k).
Proof.
  intros Hm Hk w. unfold bind. specialize (Hm w).
  destruct (m w) as [[a|e] w1]; simpl in *; [|exact Hm].
  rewrite (Hk a w1). exact Hm.
Qed.

Lemma keeps_try_except {A} (m : M A) (c : exn -> bool) (h : exn -> M A) :
  keeps_inputs m -> (forall e, keeps_inputs (h e)) -> keeps_inputs (try_except m c h).
Proof.
  intros Hm Hh w. unfold try_except. specialize (Hm w).
  destruct (m w) as [[a|e] w1]; simpl in *; [exact Hm|].
  destruct (c e); simpl; [|exact Hm].
  rewrite (Hh e w1). exact Hm.
Qed.

Lemma keeps_emit e : keeps_inputs (emit e).
Proof. intros w. reflexivity. Qed.

Lemma keeps_logging lvl msg : keeps_inputs (logging lvl msg).
Proof. intros w. reflexivity. Qed.

Lemma keeps_time_sleep d : keeps_inputs (time_sleep d).
Proof. intros w. reflexivity. Qed.

Lemma keeps_get {A} (f : World -> A) : keeps_inputs (get f).
Proof. intros w. reflexivity. Qed.

Lemma keeps_vlc c : keeps_inputs (vlc c).
Proof. intros w. destruct c; reflexivity. Qed.

Lemma keeps_time_time env : keeps_inputs (time_time env).
Proof. intros w. reflexivity. Qed.

Lemma keeps_lp_get_state env : keeps_inputs (lp_get_state env).
Proof. intros w. reflexivity. Qed.

Lemma keeps_mp_get_time env : keeps_inputs (mp_get_time env).
Proof. intros w. reflexivity. Qed.

Lemma keeps_os_listdir env path : keeps_inputs (os_listdir env path).
Proof. intros w. unfold os_listdir. destruct (fs env path); reflexivity. Qed.

Lemma keeps_random_shuffle env l : keeps_inputs (random_shuffle env l).
Proof. intros w. reflexivity. Qed.

Lemma keeps_scan_card env : keeps_inputs (scan_card env).
Proof. intros w. unfold scan_card. destruct (rfid env (scans w)); reflexivity. Qed.

Lemma keeps_set_last_action_time t : keeps_inputs (modify (set_last_action_time t)).
Proof. intros w. reflexivity. Qed.

Lemma keeps_set_play_pause_was_held b : keeps_inputs (modify (set_play_pause_was_held b)).
Proof. intros w. reflexivity. Qed.

Create HintDb keeps.
#[global] Hint Resolve keeps_ret keeps_raise keeps_emit keeps_logging
  keeps_time_sleep keeps_get keeps_vlc keeps_time_time keeps_lp_get_state
  keeps_mp_get_time keeps_os_listdir keeps_random_shuffle keeps_scan_card
  keeps_set_last_action_time keeps_set_play_pause_was_held : keeps.

(** Peel binds, handlers and case distinctions; close the leaves from the
    hint base. *)
Ltac keeps :=
  repeat first
    [ match goal with
      | |- keeps_inputs (if ?b then _ else _) => destruct b
      | |- keeps_inputs (match ?x with _ => _ end) => destruct x
      | |- keeps_inputs (bind _ _) => apply keeps_bind; [|intros ?]
      | |- keeps_inputs (try_except _ _ _) => apply keeps_try_except; [|intros ?]
      end
    | solve [auto with keeps] ].

Lemma keeps_create_media_list env path shuffle :
  keeps_inputs (create_media_list env path shuffle).
Proof. unfold create_media_list, get_movies. keeps. Qed.

Lemma keeps_play_media_list env media_list loop :
  keeps_inputs (play_media_list env media_list loop).
Proof. unfold play_media_list. keeps. Qed.

#[global] Hint Resolve keeps_create_media_list keeps_play_media_list : keeps.

Lemma keeps_play_movies_from_folder env folder kw_loop kw_shuffle :
  keeps_inputs (play_movies_from_folder env folder kw_loop kw_shuffle).
Proof. unfold play_movies_from_folder. keeps. Qed.

Lemma keeps_fast_forward env seconds : keeps_inputs (fast_forward env seconds).
Proof. unfold fast_forward. keeps. Qed.

Lemma keeps_rewind env seconds : keeps_inputs (rewind env seconds).
Proof. unfold rewind. keeps. Qed.

#[global] Hint Resolve keeps_play_movies_from_folder keeps_fast_forward
  keeps_rewind : keeps.

Lemma keeps_pressed_action env b : keeps_inputs (pressed_action env b).
Proof. destruct b; simpl; auto with keeps. Qed.

(** ** Channels *)

Lemma keeps_inputs_channel k {A} (m : M A) : keeps_inputs m -> keeps_channel k m.
Proof. intros H w. unfold last_trigger. rewrite (H w). reflexivity. Qed.

Lemma keeps_channel_bind k {A B} (m : M A) (f : A -> M B) :
  keeps_channel k m -> (forall a, keeps_channel k (f a)) -> keeps_channel k (bind m f).
Proof.
  intros Hm Hf w. unfold bind. specialize (Hm w).
  destruct (m w) as [[a|e] w1]; simpl in *; [|exact Hm].
  rewrite (Hf a w1). exact Hm.
Qed.

Lemma keeps_channel_try_except k {A} (m : M A) (c : exn -> bool) (h : exn -> M A) :
  keeps_channel k m -> (forall e, keeps_channel k (h e)) ->
  keeps_channel k (try_except m c h).
Proof.
  intros Hm Hh w. unfold try_except. specialize (Hm w).
  destruct (m w) as [[a|e] w1]; simpl in *; [exact Hm|].
  destruct (c e); simpl; [|exact Hm].
  rewrite (Hh e w1). exact Hm.
Qed.

(** A trigger on one channel leaves every other channel's timestamp. *)
Lemma input_delay_keeps_other env callback input_id delay k :
  k <> input_id -> keeps_channel k callback ->
  keeps_channel k (input_delay env callback input_id delay).
Proof.
  intros Hne Hcb w.
  destruct (input_delay_cases env callback input_id delay w) as [[_ ->]|[_ ->]].
  - rewrite (Hcb (stamped env input_id w)).
    apply last_trigger_stamped_ne. congruence.
  - apply last_trigger_suppressed.
Qed.

(** A trigger that fires leaves the second clock reading on its channel. *)
Lemma input_delay_stamps env callback input_id delay w :
  keeps_inputs callback ->
  (last_trigger w input_id + delay < clock env (clock_reads w))%Q ->
  last_trigger (snd (input_delay env callback input_id delay w)) input_id
  = clock env (S (clock_reads w)).
Proof.
  intros Hcb Hlt. rewrite (input_delay_fires _ _ _ _ _ Hlt).
  unfold last_trigger. rewrite (Hcb (stamped env input_id w)).
  apply last_trigger_stamped.
Qed.

Lemma pressed_is_gated env b :
  b <> BPause ->
  deliver env b Pressed
  = input_delay env (pressed_action env b) (channel_of b) (delay_of b).
Proof. destruct b; intros H; try reflexivity. congruence. Qed.

Lemma deliver_keeps_other env b e k :
  k <> channel_of b -> keeps_channel k (deliver env b e).
Proof.
  intros Hne.
  assert (Hret : keeps_channel k (@ret pyval PyNone))
    by (apply keeps_inputs_channel; auto with keeps).
  destruct e.
  - destruct (decide (b = BPause)) as [->|Hb]; [exact Hret|].
    rewrite (pressed_is_gated env b Hb).
    apply input_delay_keeps_other; [exact Hne|].
    apply keeps_inputs_channel, keeps_pressed_action.
  - destruct b; try exact Hret.
    unfold deliver; simpl. unfold play_pause_held.
    apply keeps_channel_bind; [apply keeps_inputs_channel; auto with keeps|].
    intros _. apply input_delay_keeps_other; [exact Hne|].
    apply keeps_inputs_channel; auto with keeps.
  - destruct b; try exact Hret.
    unfold deliver; simpl. unfold play_pause_released.
    apply keeps_channel_bind; [apply keeps_inputs_channel; auto with keeps|].
    intros [|].
    + apply keeps_inputs_channel. keeps.
    + apply input_delay_keeps_other; [exact Hne|].
      apply keeps_inputs_channel; auto with keeps.
Qed.

Lemma check_rfid_keeps_other env k :
  k <> "rfid" -> keeps_channel k (check_rfid env).
Proof.
  intros Hne. unfold check_rfid.
  apply keeps_channel_try_except;
    [|intros _; apply keeps_inputs_channel; auto with keeps].
  apply keeps_channel_bind; [apply keeps_inputs_channel; auto with keeps|].
  intros [scanned folder].
  apply keeps_channel_bind; [apply keeps_inputs_channel; auto with keeps|].
  intros _. destruct scanned; [|apply keeps_inputs_channel; auto with keeps].
  apply keeps_channel_bind;
    [destruct folder; apply keeps_inputs_channel; auto with keeps|].
  intros f.
  apply keeps_channel_bind; [apply keeps_inputs_channel; auto with keeps|].
  intros _.
  apply keeps_channel_bind; [|intros _; apply keeps_inputs_channel; auto with keeps].
  apply input_delay_keeps_other; [exact Hne|].
  apply keeps_inputs_channel; auto with keeps.
Qed.

(** What the RFID check does with a scanned card: it consults the gate of
    the channel "rfid" with a delay of one second, for the folder of the
    stripped payload. *)
Lemma check_rfid_scanned env w payload :
  rfid env (scans w) = ScanReturns true (Some payload) ->
  check_rfid env w
  = try_except
      (input_delay env
         (play_movies_from_folder env (strip payload) (Some true) (Some true))
         "rfid" 1 ;;
       ret tt)
      (fun e => bool_decide (e = TypeError))
      (fun _ => logging WARNING ErrorScanningRfid)
      (scanned_world payload w).
Proof.
  intros H. unfold check_rfid, try_except.
  unfold bind at 1, scan_card. rewrite H.
  unfold bind at 1, logging, emit. cbn [fst snd].
  unfold bind at 1, ret. cbn [fst snd].
  unfold bind at 1, logging, emit. cbn [fst snd].
  reflexivity.
Qed.

Lemma keeps_after_gate env folder :
  keeps_inputs
    (try_except
       (play_movies_from_folder env folder (Some true) (Some true) ;; ret tt)
       (fun e => bool_decide (e = TypeError))
       (fun _ => logging WARNING ErrorScanningRfid)).
Proof. keeps. Qed.

(** C5 (as the code has it). The debouncing channels are the three input
    classes, not the single buttons: the six movie buttons are gated on
    the channel "movie", fast forward, rewind and the two edges of
    play/pause on "control", and the RFID reader on "rfid" with a delay of
    one second. An edge of a button leaves the timestamp of every channel
    but its class's, and so does the RFID check; but a press that fires
    stamps its class's channel, and the press of any button of the same
    class read within that button's delay of the stamp is suppressed. A
    scanned card read within one second of the timestamp of "rfid" is
    suppressed, and one read later stamps "rfid" and plays its folder. *)
Theorem channels_are_input_classes env :
  (forall b, channel_of b = "movie" \/ channel_of b = "control") /\
  (forall b, b <> BPause ->
     deliver env b Pressed
     = input_delay env (pressed_action env b) (channel_of b) (delay_of b)) /\
  (forall w,
     deliver env BPause Held w
     = input_delay env (vlc lp_stop) (channel_of BPause) (delay_of BPause)
         (set_play_pause_was_held true w)) /\
  (forall w, play_pause_was_held w = false ->
     deliver env BPause Released w
     = input_delay env (vlc lp_pause) (channel_of BPause) (delay_of BPause) w) /\
  (forall b e k, k <> channel_of b -> keeps_channel k (deliver env b e)) /\
  (forall k, k <> "rfid" -> keeps_channel k (check_rfid env)) /\
  (forall b b' w,
     b <> BPause -> b' <> BPause -> channel_of b = channel_of b' ->
     (delay_of b < clock env (clock_reads w) - last_trigger w (channel_of b))%Q ->
     let w1 := snd (deliver env b Pressed w) in
     let stamp := clock env (S (clock_reads w)) in
     last_trigger w1 (channel_of b') = stamp /\
     ((clock env (clock_reads w1) - stamp <= delay_of b')%Q ->
      deliver env b' Pressed w1 = (Ret PyNone, suppressed (channel_of b') w1))) /\
  (forall w payload,
     rfid env (scans w) = ScanReturns true (Some payload) ->
     ((clock env (clock_reads w) - last_trigger w "rfid" <= 1)%Q ->
      check_rfid env w = (Ret tt, suppressed "rfid" (scanned_world payload w))) /\
     ((1 < clock env (clock_reads w) - last_trigger w "rfid")%Q ->
      check_rfid env w
      = try_except
          (play_movies_from_folder env (strip payload) (Some true) (Some true) ;;
           ret tt)
          (fun e => bool_decide (e = TypeError))
          (fun _ => logging WARNING ErrorScanningRfid)
          (stamped env "rfid" (scanned_world payload w)) /\
      last_trigger (snd (check_rfid env w)) "rfid"
      = clock env (S (clock_reads w)))).
Proof.
  split; [intros b; destruct b; simpl; auto|].
  split; [apply pressed_is_gated|].
  split; [apply held_run|].
  split; [apply released_without_hold|].
  split; [intros b e k; apply deliver_keeps_other|].
  split; [intros k; apply check_rfid_keeps_other|].
  split.
  - intros b b' w Hb Hb' Hsame Hopen w1 stamp. subst w1 stamp.
    assert (Hlt : (last_trigger w (channel_of b) + delay_of b
                   < clock env (clock_reads w))%Q) by lra.
    rewrite (pressed_is_gated env b Hb), (pressed_is_gated env b' Hb'), <- Hsame.
    pose proof (input_delay_stamps env (pressed_action env b) (channel_of b)
                  (delay_of b) w (keeps_pressed_action env b) Hlt) as Hst.
    split; [exact Hst|].
    intros Hnear. apply input_delay_suppresses. rewrite Hst. lra.
  - intros w payload Hscan. rewrite (check_rfid_scanned env w payload Hscan).
    set (ws := scanned_world payload w).
    assert (Hl : last_trigger ws "rfid" = last_trigger w "rfid") by reflexivity.
    assert (Hc : clock_reads ws = clock_reads w) by reflexivity.
    split; intros Hgate.
    + unfold try_except.
      rewrite (bind_ret_run _ _ _ _ _
                 (input_delay_suppresses env _ "rfid" 1 ws
                    ltac:(rewrite Hl, Hc; lra))).
      reflexivity.
    + assert (Hlt : (last_trigger ws "rfid" + 1 < clock env (clock_reads ws))%Q)
        by (rewrite Hl, Hc; lra).
      assert (Heq :
        try_except
          (input_delay env
             (play_movies_from_folder env (strip payload) (Some true) (Some true))
             "rfid" 1 ;; ret tt)
          (fun e => bool_decide (e = TypeError))
          (fun _ => logging WARNING ErrorScanningRfid) ws
        = try_except
            (play_movies_from_folder env (strip payload) (Some true) (Some true) ;;
             ret tt)
            (fun e => bool_decide (e = TypeError))
            (fun _ => logging WARNING ErrorScanningRfid)
            (stamped env "rfid" ws)).
      { unfold try_except, bind.
        rewrite (input_delay_fires env _ "rfid" 1 ws Hlt). reflexivity. }
      rewrite Heq. split; [reflexivity|].
      unfold last_trigger.
      rewrite (keeps_after_gate env (strip payload) (stamped env "rfid" ws)).
      fold (last_trigger (stamped env "rfid" ws) "rfid").
      rewrite last_trigger_stamped, Hc. reflexivity.
Qed.

(** Button b1 pressed at 1000 fires; button b2 of the same class, read at
    1001, is suppressed. *)
Lemma channels_are_input_classes_witness :
  let w1 := snd (deliver env_two_buttons B1 Pressed (init env_two_buttons)) in
  deliver env_two_buttons B2 Pressed w1 = (Ret PyNone, suppressed "movie" w1).
Proof.
  intros w1.
  destruct (channels_are_input_classes env_two_buttons)
    as (_ & _ & _ & _ & _ & _ & H & _).
  destruct (H B1 B2 (init env_two_buttons)) as (_ & H2);
    [discriminate | discriminate | reflexivity | reflexivity |].
  apply H2. vm_compute. discriminate.
Defined.

(** C5 as stated fails for two buttons of one class. Button b2 was never
    pressed; read at 1001 it starts its folder when nothing came before it,
    but after button b1 fired at 1000 the same press is suppressed and the
    engine receives nothing. *)
Lemma buttons_share_channel_counterexample :
  let w1 := snd (deliver env_two_buttons B1 Pressed (init env_two_buttons)) in
  let w2 := snd (deliver env_two_buttons B2 Pressed w1) in
  let alone := snd (deliver env_one_button B2 Pressed (init env_one_button)) in
  clock env_two_buttons (clock_reads w1) = 1001%Q /\
  vlc_calls (trace w2) = vlc_calls (trace w1) /\
  clock env_one_button (clock_reads (init env_one_button)) = 1001%Q /\
  vlc_calls (trace alone)
  = [set_fullscreen true; set_media_list ["/media/usb/b2/d.avi"];
     set_playback_mode 1; lp_next; lp_play].
Proof. vm_compute. repeat split. Qed.

(** ** The inactivity timeout *)

Lemma inactivity_timeout_fires tick_start w :
  (last_action_time w + inactive_timeout w * 60 < tick_start)%Q ->
  inactivity_timeout tick_start w = (Ret tt, reset_player tick_start w).
Proof.
  intros H. apply Qltb_lt in H.
  unfold inactivity_timeout, bind, get. simpl. rewrite H.
  unfold logging, emit, vlc, modify, reset_player. simpl.
  rewrite <- !app_assoc. reflexivity.
Qed.

Lemma inactivity_timeout_idle tick_start w :
  (tick_start <= last_action_time w + inactive_timeout w * 60)%Q ->
  inactivity_timeout tick_start w = (Ret tt, w).
Proof.
  intros H. apply Qltb_ge in H.
  unfold inactivity_timeout, bind, get. simpl. rewrite H. reflexivity.
Qed.

(** An iteration of the loop reads the clock and runs the check at that
    reading before anything else. *)
Lemma tick_checks_inactivity_first env w :
  tick env w
  = (inactivity_timeout (clock env (clock_reads w)) ;;
     fl <- default_movie env ;;
     match fl with
     | Continue => ret tt
     | Fallthrough => check_rfid env ;; pace env (clock env (clock_reads w))
     end) (set_clock_reads (S (clock_reads w)) w).
Proof. reflexivity. Qed.

(** C3 (as the code has it). With [limit] the timeout in seconds
    ([inactive_timeout * 60]): on a tick started more than [limit] after
    the last action, the check empties the list player's media list, sets
    playback mode 0 and moves the last action time to the tick's start, so
    that the check of any later tick started within [limit] of this one
    does nothing; on a tick started at most [limit] after the last action
    the check changes nothing. *)
Theorem inactivity_timeout_strict tick_start w :
  let limit := (inactive_timeout w * 60)%Q in
  ((limit < tick_start - last_action_time w)%Q ->
     let w' := snd (inactivity_timeout tick_start w) in
     fst (inactivity_timeout tick_start w) = Ret tt /\
     lp_media_list w' = [] /\
     lp_playback_mode w' = 0%Z /\
     last_action_time w' = tick_start /\
     vlc_calls (trace w')
       = vlc_calls (trace w) ++ [set_media_list []; set_playback_mode 0] /\
     (forall next, (next - tick_start <= limit)%Q ->
                   inactivity_timeout next w' = (Ret tt, w'))) /\
  ((tick_start - last_action_time w <= limit)%Q ->
     inactivity_timeout tick_start w = (Ret tt, w)).
Proof.
  intros limit. subst limit. split; intros H.
  - rewrite inactivity_timeout_fires by lra. simpl.
    split; [reflexivity|]. split; [reflexivity|]. split; [reflexivity|].
    split; [reflexivity|]. split.
    + rewrite vlc_calls_app. reflexivity.
    + intros next Hnext. apply inactivity_timeout_idle. simpl. lra.
  - apply inactivity_timeout_idle. lra.
Qed.

(** A list played at 1000 with the 300 minute timeout: the tick started at
    19001 resets the player. *)
Lemma inactivity_timeout_strict_witness :
  lp_media_list (snd (inactivity_timeout 19001 idle_since_1000)) = [] /\
  inactivity_timeout 19000 idle_since_1000 = (Ret tt, idle_since_1000).
Proof.
  destruct (inactivity_timeout_strict 19001 idle_since_1000) as (H & _).
  destruct (inactivity_timeout_strict 19000 idle_since_1000) as (_ & H').
  split.
  - apply H. reflexivity.
  - apply H'. vm_compute. discriminate.
Defined.

(** C3 as stated fails at the boundary: the tick started at 19000, exactly
    [300 * 60] seconds after the last action at 1000, satisfies
    [now - lastActionTimestamp >= timeout], and the check leaves the media
    list, the loop mode and the last action time as they were. *)
Lemma inactivity_boundary_counterexample :
  let w' := snd (inactivity_timeout 19000 idle_since_1000) in
  (19000 - last_action_time idle_since_1000
     >= inactive_timeout idle_since_1000 * 60)%Q /\
  lp_media_list w' = ["/media/usb/b1/a.mp4"] /\
  lp_playback_mode w' = 1%Z /\
  last_action_time w' = 1000%Q.
Proof. vm_compute. repeat split. discriminate. Qed.

(** ** The playlist builder *)

Lemma fold_add_media movies acc : fold_left add_media movies acc = acc ++ movies.
Proof.
  revert acc. induction movies as [|m movies IH]; intros acc; simpl.
  - symmetry. apply app_nil_r.
  - rewrite IH. unfold add_media. rewrite <- app_assoc. reflexivity.
Qed.

Lemma create_media_list_missing env path shuffle w :
  fs env path = ListdirRaises FileNotFoundError ->
  create_media_list env path shuffle w
  = (Ret [], set_trace (trace w ++ [Log WARNING (ExnMessage FileNotFoundError)]) w).
Proof.
  intros H.
  unfold create_media_list, get_movies, bind, try_except, os_listdir.
  rewrite H. reflexivity.
Qed.

Lemma create_media_list_raises env path shuffle w e :
  e <> FileNotFoundError ->
  fs env path = ListdirRaises e ->
  create_media_list env path shuffle w = (Raise e, w).
Proof.
  intros Hne H.
  unfold create_media_list, get_movies, bind, try_except, os_listdir.
  rewrite H. rewrite bool_decide_eq_false_2 by exact Hne. reflexivity.
Qed.

Lemma create_media_list_listed env path names w :
  fs env path = Entries names ->
  fst (create_media_list env path false w)
  = Ret (map (os_path_join path) (List.filter is_movie_format names)).
Proof.
  intros H.
  unfold create_media_list, get_movies, bind, try_except, os_listdir, logging, emit.
  rewrite H. simpl. rewrite fold_add_media. reflexivity.
Qed.

(** C4 (as the code has it). For a missing directory, one whose listing
    raises FileNotFoundError, the builder returns the empty media list and
    logs the error as a warning, whatever [shuffle] is, and nothing else
    changes. A directory whose listing fails in another way (it cannot be
    read, it is not a directory) is not handled: the builder raises that
    exception to its caller and logs nothing. *)
Theorem create_media_list_handles_missing_only env path shuffle w :
  (fs env path = ListdirRaises FileNotFoundError ->
     create_media_list env path shuffle w
     = (Ret [], set_trace (trace w ++ [Log WARNING (ExnMessage FileNotFoundError)]) w)) /\
  (forall e, e <> FileNotFoundError -> fs env path = ListdirRaises e ->
     create_media_list env path shuffle w = (Raise e, w)).
Proof.
  split.
  - apply create_media_list_missing.
  - intros e. apply create_media_list_raises.
Qed.

(** Folder b3 is not on the stick: the builder answers with the empty
    list. *)
Lemma create_media_list_handles_missing_only_witness :
  fst (create_media_list env_two_buttons "/media/usb/b3" true (init env_two_buttons))
  = Ret [].
Proof.
  destruct (create_media_list_handles_missing_only env_two_buttons "/media/usb/b3"
              true (init env_two_buttons)) as (H & _).
  rewrite H; reflexivity.
Defined.

(** C4 as stated fails for an unreadable directory: listing it raises
    PermissionError, which the builder raises to its caller, without a
    warning; and the press of button b1 that asked for it raises it too. *)
Lemma unreadable_directory_counterexample :
  create_media_list env_locked "/media/usb/b1" true (init env_locked)
    = (Raise PermissionError, init env_locked) /\
  fst (deliver env_locked B1 Pressed (init env_locked)) = Raise PermissionError.
Proof. vm_compute. repeat split. Qed.

(** *** Substrings *)

Lemma prefix_iff sub s :
  String.prefix sub s = true <-> exists post, s = sub +:+ post.
Proof.
  revert s. induction sub as [|a sub IH]; intros s.
  - split; [intros _; exists s; reflexivity|]. intros _. destruct s; reflexivity.
  - destruct s as [|b s]; simpl.
    + split; [discriminate | intros [post H]; discriminate].
    + destruct (ascii_dec a b) as [->|Hne].
      * rewrite IH. split; intros [post H]; exists post; [subst; reflexivity|].
        injection H as H. exact H.
      * split; [discriminate|]. intros [post H]. injection H as H1 H2. congruence.
Qed.

Lemma contains_nil sub :
  contains sub "" = if String.prefix sub "" then true else false.
Proof. reflexivity. Qed.

Lemma contains_cons sub b s :
  contains sub (String b s)
  = if String.prefix sub (String b s) then true else contains sub s.
Proof. reflexivity. Qed.

(** [contains sub s] is Python's [sub in s]: [sub] occurs in [s], character
    for character. *)
Lemma contains_iff sub s :
  contains sub s = true <-> exists pre post, s = pre +:+ sub +:+ post.
Proof.
  induction s as [|b s IH].
  - rewrite contains_nil. destruct (String.prefix sub "") eqn:Hp.
    + apply prefix_iff in Hp. destruct Hp as [post Hp].
      split; [intros _; exists "", post; exact Hp | reflexivity].
    + split; [discriminate|]. intros (pre & post & H).
      destruct pre; simpl in H; [|discriminate].
      assert (Hp' : String.prefix sub "" = true) by (apply prefix_iff; eauto).
      congruence.
  - rewrite contains_cons. destruct (String.prefix sub (String b s)) eqn:Hp.
    + apply prefix_iff in Hp. destruct Hp as [post Hp].
      split; [intros _; exists "", post; exact Hp | reflexivity].
    + rewrite IH. split.
      * intros (pre & post & H). exists (String b pre), post.
        rewrite H. reflexivity.
      * intros (pre & post & H). destruct pre as [|c pre]; simpl in H.
        -- assert (Hp' : String.prefix sub (String b s) = true)
             by (apply prefix_iff; eauto).
           congruence.
        -- injection H as _ H. eauto.
Qed.

Lemma is_movie_format_from_iff formats file :
  is_movie_format_from formats file = true
  <-> exists _format, In _format formats /\ contains _format file = true.
Proof.
  induction formats as [|f formats IH]; simpl.
  - split; [discriminate | intros (x & [] & _)].
  - destruct (contains f file) eqn:Hc.
    + split; [intros _; exists f; auto | reflexivity].
    + rewrite IH. split.
      * intros (x & Hin & Hx). exists x. auto.
      * intros (x & [<-|Hin] & Hx); [congruence | eauto].
Qed.

(** C7. For a directory that lists [names], the builder without shuffle
    returns, in listing order, the media of exactly the names that contain
    one of the recognised formats as a substring, compared character for
    character; a media stands as the path it is made from,
    [os.path.join(path, name)]. For the listing a.mp4, b.txt, c.mkv the
    list is that of the media of a.mp4 and of c.mkv, in this order. *)
Theorem create_media_list_filters_in_listing_order env path names w :
  fs env path = Entries names ->
  fst (create_media_list env path false w)
    = Ret (map (os_path_join path) (List.filter is_movie_format names)) /\
  (forall name,
     is_movie_format name = true
     <-> exists _format pre post,
           In _format movie_formats /\ name = pre +:+ _format +:+ post) /\
  (names = ["a.mp4"; "b.txt"; "c.mkv"] ->
   fst (create_media_list env path false w)
     = Ret [os_path_join path "a.mp4"; os_path_join path "c.mkv"]).
Proof.
  intros H. split; [apply create_media_list_listed; exact H|]. split.
  - intros name. unfold is_movie_format. rewrite is_movie_format_from_iff. split.
    + intros (f & Hin & Hc). apply contains_iff in Hc.
      destruct Hc as (pre & post & Hc). eauto 6.
    + intros (f & pre & post & Hin & Hc). exists f. split; [exact Hin|].
      apply contains_iff. eauto.
  - intros ->. rewrite (create_media_list_listed env path _ w H). reflexivity.
Qed.

(** The directory b1 of the scenario. *)
Lemma create_media_list_filters_in_listing_order_witness :
  fst (create_media_list env_b1 "b1" false (init env_b1))
  = Ret ["b1/a.mp4"; "b1/c.mkv"].
Proof.
  destruct (create_media_list_filters_in_listing_order env_b1 "b1"
              ["a.mp4"; "b.txt"; "c.mkv"] (init env_b1)) as (_ & _ & H);
    [reflexivity|].
  rewrite H; reflexivity.
Defined.

(** The match is case-sensitive and anywhere in the name. *)
Example is_movie_format_examples :
  is_movie_format "A.MP4" = false /\
  is_movie_format "a.mp4.txt" = true /\
  is_movie_format "c.mkv" = true /\
  is_movie_format "b.txt" = false.
Proof. repeat split. Qed.

(** ** Seeking *)

Lemma last_seek_of_app a b acc :
  last_seek_of (a ++ b) acc = last_seek_of b (last_seek_of a acc).
Proof.
  revert acc. induction a as [|c a IH]; intros acc; [reflexivity|].
  destruct c; simpl; apply IH.
Qed.

(** C8 (as the code has it). Fast forward seeks to the position it read
    plus [seconds * 1000] and rewind to the position it read minus
    [seconds * 1000], whatever these targets are: no bound is applied to
    them at this layer. So the round trip is only as good as the engine's
    answer to the first seek: when the engine reports to rewind a position
    within [g] of the one fast forward sought, the latest seek after the
    rewind is to within [g] of the position fast forward started from, and
    when the engine then reports a position within [g'] of that seek, the
    reported position is back within [g + g'] of the original. *)
Theorem fast_forward_then_rewind env seconds w :
  let p0 := engine_position env (position_reads w) in
  let p1 := engine_position env (S (position_reads w)) in
  let p2 := engine_position env (S (S (position_reads w))) in
  let w1 := snd (fast_forward env seconds w) in
  let w2 := snd (rewind env seconds w1) in
  vlc_calls (trace w1) = vlc_calls (trace w) ++ [set_time (p0 + seconds * 1000)] /\
  vlc_calls (trace w2)
    = vlc_calls (trace w)
      ++ [set_time (p0 + seconds * 1000); set_time (p1 - seconds * 1000)] /\
  engine_position env (position_reads w2) = p2 /\
  (forall g : Z,
     (Z.abs (p1 - (p0 + seconds * 1000)) <= g)%Z ->
     exists t, last_seek w2 = Some t /\ (Z.abs (t - p0) <= g)%Z) /\
  (forall g g' : Z,
     (Z.abs (p1 - (p0 + seconds * 1000)) <= g)%Z ->
     (Z.abs (p1 - seconds * 1000 - p0) <= g)%Z /\
     ((Z.abs (p2 - (p1 - seconds * 1000)) <= g')%Z ->
      (Z.abs (p2 - p0) <= g + g')%Z)).
Proof.
  intros p0 p1 p2 w1 w2.
  assert (H2 : vlc_calls (trace w2)
               = vlc_calls (trace w)
                 ++ [set_time (p0 + seconds * 1000); set_time (p1 - seconds * 1000)]).
  { subst p0 p1 p2 w1 w2.
    unfold fast_forward, rewind, bind, mp_get_time, logging, emit, vlc, ret. simpl.
    rewrite !vlc_calls_app. simpl. rewrite !app_nil_r, <- !app_assoc. reflexivity. }
  split; [|split; [exact H2|split; [|split]]].
  - subst p0 p1 p2 w1 w2.
    unfold fast_forward, bind, mp_get_time, logging, emit, vlc, ret. simpl.
    rewrite !vlc_calls_app. simpl. rewrite !app_nil_r. reflexivity.
  - reflexivity.
  - intros g H. exists (p1 - seconds * 1000)%Z. split; [|lia].
    unfold last_seek. rewrite H2, last_seek_of_app. reflexivity.
  - intros g g' H. split; [lia|]. intros H'. lia.
Qed.

(** From 60000 ms, thirty seconds forward and back with 40 ms of playback
    in between: rewind seeks to 60040 ms. *)
Lemma fast_forward_then_rewind_witness :
  let w2 := snd (rewind env_seek 30 (snd (fast_forward env_seek 30 (init env_seek)))) in
  vlc_calls (trace w2) = [set_fullscreen true; set_time 90000; set_time 60040] /\
  exists t, last_seek w2 = Some t /\ (Z.abs (t - 60000) <= 40)%Z.
Proof.
  intros w2.
  destruct (fast_forward_then_rewind env_seek 30 (init env_seek))
    as (_ & H & _ & Hg & _).
  split; [exact H|].
  apply (Hg 40%Z). vm_compute. discriminate.
Defined.

(** C8 as stated fails when the engine clamps the forward seek. A clip of
    60 s stands at 50 s: fast forward thirty seconds seeks to 80000 ms,
    the engine stops at the end of the clip, 60000 ms, rewind thirty
    seconds seeks to 30000 ms from there, and the position reported after
    the round trip is 30000 ms, twenty seconds before the original. *)
Lemma clamped_seek_counterexample :
  let w0 := init env_short_clip in
  let w2 := snd (rewind env_short_clip 30 (snd (fast_forward env_short_clip 30 w0))) in
  engine_position env_short_clip (position_reads w0) = 50000%Z /\
  vlc_calls (trace w2) = [set_fullscreen true; set_time 80000; set_time 30000] /\
  engine_position env_short_clip (position_reads w2) = 30000%Z /\
  Z.abs (engine_position env_short_clip (position_reads w2)
         - engine_position env_short_clip (position_reads w0)) = 20000%Z.
Proof. vm_compute. repeat split. Qed.

(** Rewinding thirty seconds from 5 seconds asks for a negative position. *)
Example rewind_is_not_clamped :
  vlc_calls (trace (snd (rewind (quiet_env (readings [] 0) 3 5000 no_dirs) 30
                           (init (quiet_env (readings [] 0) 3 5000 no_dirs)))))
  = [set_fullscreen true; set_time (-25000)].
Proof. reflexivity. Qed.

(** ** Methods that never raise *)

Lemma returns_ret {A} (a : A) : returns (ret a).
Proof. intros w. exists a. reflexivity. Qed.

Lemma returns_bind {A B} (m : M A) (k : A -> M B) :
  returns m -> (forall a, returns (k a)) -> returns (bind m k).
Proof.
  intros Hm Hk w. unfold bind. destruct (Hm w) as [a Ha].
  destruct (m w) as [r w1]. simpl in Ha. subst r. apply Hk.
Qed.

Lemma returns_emit e : returns (emit e).
Proof. intros w. exists tt. reflexivity. Qed.

Lemma returns_logging lvl msg : returns (logging lvl msg).
Proof. apply returns_emit. Qed.

Lemma returns_time_sleep d : returns (time_sleep d).
Proof. apply returns_emit. Qed.

Lemma returns_get {A} (f : World -> A) : returns (get f).
Proof. intros w. exists (f w). reflexivity. Qed.

Lemma returns_modify f : returns (modify f).
Proof. intros w. exists tt. reflexivity. Qed.

Lemma returns_vlc c : returns (vlc c).
Proof. intros w. exists PyNone. reflexivity. Qed.

Lemma returns_time_time env : returns (time_time env).
Proof. intros w. eexists. reflexivity. Qed.

Lemma returns_lp_get_state env : returns (lp_get_state env).
Proof. intros w. eexists. reflexivity. Qed.

Lemma returns_random_shuffle env l : returns (random_shuffle env l).
Proof. intros w. eexists. reflexivity. Qed.

Create HintDb returns.
#[global] Hint Resolve returns_ret returns_emit returns_logging returns_time_sleep
  returns_get returns_modify returns_vlc returns_time_time returns_lp_get_state
  returns_random_shuffle : returns.

Ltac returns :=
  repeat first
    [ match goal with
      | |- returns (if ?b then _ else _) => destruct b
      | |- returns (match ?x with _ => _ end) => destruct x
      | |- returns (bind _ _) => apply returns_bind; [|intros ?]
      end
    | solve [auto with returns] ].

Lemma returns_get_movies env path : listable env -> returns (get_movies env path).
Proof.
  intros Hfs w. unfold get_movies, try_except, bind, os_listdir.
  destruct (fs env path) as [names|e] eqn:Hp; simpl.
  - eexists. reflexivity.
  - rewrite (Hfs path e Hp). simpl. eexists. reflexivity.
Qed.

Lemma returns_create_media_list env path shuffle :
  listable env -> returns (create_media_list env path shuffle).
Proof.
  intros Hfs. unfold create_media_list.
  apply returns_bind; [apply returns_get_movies; exact Hfs|].
  intros [movies|]; returns.
Qed.

Lemma returns_play_media_list env media_list loop :
  returns (play_media_list env media_list loop).
Proof. unfold play_media_list. returns. Qed.

Lemma returns_inactivity_timeout tick_start : returns (inactivity_timeout tick_start).
Proof. unfold inactivity_timeout. returns. Qed.

#[global] Hint Resolve returns_create_media_list returns_play_media_list
  returns_inactivity_timeout : returns.

Lemma returns_default_movie env : listable env -> returns (default_movie env).
Proof. intros Hfs. unfold default_movie. returns. Qed.

Lemma returns_pace env tick_start : returns (pace env tick_start).
Proof. unfold pace. returns. Qed.


(** ** What a method leaves alone, for any observation of the world *)

Create HintDb kf.

Section Frame.

Context {B : Type} (f : World -> B).

Hypothesis f_trace : forall t w, f (set_trace t w) = f w.
Hypothesis f_clock_reads : forall n w, f (set_clock_reads n w) = f w.
Hypothesis f_state_reads : forall n w, f (set_state_reads n w) = f w.
Hypothesis f_position_reads : forall n w, f (set_position_reads n w) = f w.
Hypothesis f_shuffles : forall n w, f (set_shuffles n w) = f w.
Hypothesis f_scans : forall n w, f (set_scans n w) = f w.
Hypothesis f_last_action_time : forall t w, f (set_last_action_time t w) = f w.
Hypothesis f_lp_media_list : forall l w, f (set_lp_media_list l w) = f w.
Hypothesis f_lp_playback_mode : forall m w, f (set_lp_playback_mode m w) = f w.
Hypothesis f_last_input_times : forall m w, f (set_last_input_times m w) = f w.

Lemma kf_ret {A} (a : A) : keeps_field f (ret a).
Proof. intros w. reflexivity. Qed.

Lemma kf_raise {A} (e : exn) : keeps_field f (@raise A e).
Proof. intros w. reflexivity. Qed.

Lemma kf_bind {A C} (m : M A) (k : A -> M C) :
  keeps_field f m -> (forall a, keeps_field f (k a)) -> keeps_field f (bind m k).
Proof.
  intros Hm Hk w. unfold bind. specialize (Hm w).
  destruct (m w) as [[a|e] w1]; simpl in *; [|exact Hm].
  rewrite (Hk a w1). exact Hm.
Qed.

Lemma kf_try_except {A} (m : M A) (c : exn -> bool) (h : exn -> M A) :
  keeps_field f m -> (forall e, keeps_field f (h e)) ->
  keeps_field f (try_except m c h).
Proof.
  intros Hm Hh w. unfold try_except. specialize (Hm w).
  destruct (m w) as [[a|e] w1]; simpl in *; [exact Hm|].
  destruct (c e); simpl; [|exact Hm].
  rewrite (Hh e w1). exact Hm.
Qed.

Lemma kf_get {A} (g : World -> A) : keeps_field f (get g).
Proof. intros w. reflexivity. Qed.

Lemma kf_emit e : keeps_field f (emit e).
Proof. intros w. apply f_trace. Qed.

Lemma kf_logging lvl msg : keeps_field f (logging lvl msg).
Proof. apply kf_emit. Qed.

Lemma kf_time_sleep d : keeps_field f (time_sleep d).
Proof. apply kf_emit. Qed.

Lemma kf_vlc c : keeps_field f (vlc c).
Proof.
  intros w. unfold vlc; simpl. rewrite f_trace.
  destruct c; auto.
Qed.

Lemma kf_time_time env : keeps_field f (time_time env).
Proof. intros w. apply f_clock_reads. Qed.

Lemma kf_lp_get_state env : keeps_field f (lp_get_state env).
Proof. intros w. apply f_state_reads. Qed.

Lemma kf_mp_get_time env : keeps_field f (mp_get_time env).
Proof. intros w. apply f_position_reads. Qed.

Lemma kf_os_listdir env path : keeps_field f (os_listdir env path).
Proof. intros w. unfold os_listdir. destruct (fs env path); reflexivity. Qed.

Lemma kf_random_shuffle env l : keeps_field f (random_shuffle env l).
Proof. intros w. apply f_shuffles. Qed.

Lemma kf_scan_card env : keeps_field f (scan_card env).
Proof.
  intros w. unfold scan_card. destruct (rfid env (scans w)); apply f_scans.
Qed.

Lemma kf_set_last_action_time t : keeps_field f (modify (set_last_action_time t)).
Proof. intros w. apply f_last_action_time. Qed.

Lemma kf_last_input_times_getitem k : keeps_field f (last_input_times_getitem k).
Proof.
  intros w. unfold last_input_times_getitem.
  destruct (last_input_times w !! k); simpl; auto.
Qed.

Lemma kf_last_input_times_setitem k v : keeps_field f (last_input_times_setitem k v).
Proof. intros w. apply f_last_input_times. Qed.

#[local] Hint Resolve kf_ret kf_raise kf_get kf_emit kf_logging kf_time_sleep
  kf_vlc kf_time_time kf_lp_get_state kf_mp_get_time kf_os_listdir
  kf_random_shuffle kf_scan_card kf_set_last_action_time
  kf_last_input_times_getitem kf_last_input_times_setitem : kf.

Ltac kf :=
  repeat first
    [ match goal with
      | |- keeps_field _ (if ?b then _ else _) => destruct b
      | |- keeps_field _ (match ?x with _ => _ end) => destruct x
      | |- keeps_field _ (let '(_, _) := ?x in _) => destruct x
      | |- keeps_field _ (bind _ _) => apply kf_bind; [|intros ?]
      | |- keeps_field _ (try_except _ _ _) => apply kf_try_except; [|intros ?]
      end
    | solve [auto with kf] ].

Lemma kf_create_media_list env path shuffle :
  keeps_field f (create_media_list env path shuffle).
Proof. unfold create_media_list, get_movies. kf. Qed.

Lemma kf_play_media_list env media_list loop :
  keeps_field f (play_media_list env media_list loop).
Proof. unfold play_media_list. kf. Qed.

#[local] Hint Resolve kf_create_media_list kf_play_media_list : kf.

Lemma kf_play_movies_from_folder env folder kw_loop kw_shuffle :
  keeps_field f (play_movies_from_folder env folder kw_loop kw_shuffle).
Proof. unfold play_movies_from_folder. kf. Qed.

Lemma kf_fast_forward env seconds : keeps_field f (fast_forward env seconds).
Proof. unfold fast_forward. kf. Qed.

Lemma kf_rewind env seconds : keeps_field f (rewind env seconds).
Proof. unfold rewind. kf. Qed.

Lemma kf_input_delay env callback input_id delay :
  keeps_field f callback -> keeps_field f (input_delay env callback input_id delay).
Proof. intros H. unfold input_delay. kf. Qed.

#[local] Hint Resolve kf_play_movies_from_folder kf_fast_forward kf_rewind
  kf_input_delay : kf.

Lemma kf_pressed b env : keeps_field f (deliver env b Pressed).
Proof. destruct b; unfold deliver; simpl; auto with kf. Qed.

Lemma kf_inactivity_timeout tick_start : keeps_field f (inactivity_timeout tick_start).
Proof. unfold inactivity_timeout. kf. Qed.

Lemma kf_default_movie env : keeps_field f (default_movie env).
Proof. unfold default_movie. kf. Qed.

Lemma kf_pace env tick_start : keeps_field f (pace env tick_start).
Proof. unfold pace. kf. Qed.

Lemma kf_check_rfid env : keeps_field f (check_rfid env).
Proof. unfold check_rfid. kf. Qed.

#[local] Hint Resolve kf_inactivity_timeout kf_default_movie kf_pace
  kf_check_rfid : kf.

Lemma kf_tick env : keeps_field f (tick env).
Proof. unfold tick. kf. Qed.

Lemma kf_loop env n : keeps_field f (loop env n).
Proof.
  induction n as [|n IH]; simpl; [apply kf_ret|].
  apply kf_bind; [apply kf_tick | intros _; exact IH].
Qed.

Lemma kf_after_scan env r : keeps_field f (after_scan env r).
Proof. unfold after_scan. kf. Qed.

End Frame.

(** ** The RFID check *)

Lemma check_rfid_type_error env w :
  rfid env (scans w) = ScanRaises TypeError ->
  check_rfid env w = (Ret tt, rfid_warned w).
Proof.
  intros H. unfold check_rfid, try_except, bind, scan_card. rewrite H. reflexivity.
Qed.

(** An exception of another class passes through the handler. *)
Lemma check_rfid_other_error env w e :
  e <> TypeError ->
  rfid env (scans w) = ScanRaises e ->
  check_rfid env w = (Raise e, set_scans (S (scans w)) w).
Proof.
  intros Hne H. unfold check_rfid, try_except, bind, scan_card. rewrite H.
  rewrite bool_decide_eq_false_2 by exact Hne. reflexivity.
Qed.

Lemma returns_check_rfid_deaf env :
  (forall k, rfid env k = ScanRaises TypeError) -> returns (check_rfid env).
Proof. intros H w. exists tt. rewrite (check_rfid_type_error env w (H _)). reflexivity. Qed.

Lemma returns_tick_deaf env :
  listable env -> (forall k, rfid env k = ScanRaises TypeError) -> returns (tick env).
Proof.
  intros Hfs Hscan. unfold tick.
  apply returns_bind; [auto with returns|]. intros tick_start.
  apply returns_bind; [auto with returns|]. intros _.
  apply returns_bind; [apply returns_default_movie; exact Hfs|]. intros [|].
  - apply returns_bind; [apply returns_check_rfid_deaf; exact Hscan|].
    intros _. apply returns_pace.
  - auto with returns.
Qed.

Lemma returns_loop_deaf env n :
  listable env -> (forall k, rfid env k = ScanRaises TypeError) -> returns (loop env n).
Proof.
  intros Hfs Hscan. induction n as [|n IH]; simpl.
  - auto with returns.
  - apply returns_bind; [apply returns_tick_deaf; assumption|]. intros _. exact IH.
Qed.

(** An iteration is its part before the RFID check and then, unless that
    part raised or left by [continue], the RFID check and the pacing. *)
Lemma tick_split env w :
  tick env w
  = match before_rfid env w with
    | (Ret Fallthrough, wd) =>
        (check_rfid env ;; pace env (clock env (clock_reads w))) wd
    | (Ret Continue, wd) => (Ret tt, wd)
    | (Raise e, wd) => (Raise e, wd)
    end.
Proof.
  rewrite tick_checks_inactivity_first. unfold before_rfid, bind.
  destruct (inactivity_timeout _ _) as [[[]|e] wi]; [|reflexivity].
  destruct (default_movie env wi) as [[[|]|e] wd]; reflexivity.
Qed.

(** The reader is not polled before the RFID check. *)
Lemma before_rfid_scans env w : scans (snd (before_rfid env w)) = scans w.
Proof.
  unfold before_rfid.
  assert (H : keeps_field scans
                (inactivity_timeout (clock env (clock_reads w)) ;; default_movie env)).
  { apply kf_bind; [apply kf_inactivity_timeout; intros; reflexivity|].
    intros _. apply kf_default_movie; intros; reflexivity. }
  rewrite (H _). reflexivity.
Qed.

Lemma loop_next env n w :
  fst (tick env w) = Ret tt -> loop env (S n) w = loop env n (snd (tick env w)).
Proof.
  intros H. simpl. unfold bind.
  destruct (tick env w) as [[[]|e] w1]; [reflexivity | discriminate H].
Qed.

(** C6 (as the code has it). The RFID check catches TypeError and nothing
    else. When the scan of a tick raises TypeError, the check catches it,
    logs a warning and does nothing else: no folder is started and no
    channel is stamped; the iteration that reached the check goes on with
    its pacing and returns, and the loop goes on with the next iteration
    from the world that iteration left; on a file system whose listings
    succeed or report a missing directory the loop runs through any number
    of iterations even when every scan fails so. When the scan raises an
    exception of any other class, the check raises it, and so do the
    iteration and the loop, which ends there. *)
Theorem rfid_type_error_is_survived env :
  (forall w, rfid env (scans w) = ScanRaises TypeError ->
     check_rfid env w = (Ret tt, rfid_warned w) /\
     vlc_calls (trace (rfid_warned w)) = vlc_calls (trace w) /\
     last_input_times (rfid_warned w) = last_input_times w /\
     warnings (trace (rfid_warned w)) = warnings (trace w) ++ [ErrorScanningRfid]) /\
  (forall w wd,
     before_rfid env w = (Ret Fallthrough, wd) ->
     rfid env (scans w) = ScanRaises TypeError ->
     tick env w = pace env (clock env (clock_reads w)) (rfid_warned wd) /\
     fst (tick env w) = Ret tt) /\
  (forall n w,
     fst (tick env w) = Ret tt -> loop env (S n) w = loop env n (snd (tick env w))) /\
  (listable env -> (forall k, rfid env k = ScanRaises TypeError) ->
   forall n w, fst (loop env n w) = Ret tt) /\
  (forall e w wd n,
     e <> TypeError ->
     before_rfid env w = (Ret Fallthrough, wd) ->
     rfid env (scans w) = ScanRaises e ->
     check_rfid env wd = (Raise e, set_scans (S (scans wd)) wd) /\
     tick env w = (Raise e, set_scans (S (scans wd)) wd) /\
     loop env (S n) w = (Raise e, set_scans (S (scans wd)) wd)).
Proof.
  split; [|split; [|split; [|split]]].
  - intros w H. split; [apply check_rfid_type_error; exact H|].
    split; [unfold rfid_warned; simpl; rewrite vlc_calls_app; apply app_nil_r|].
    split; [reflexivity|].
    unfold rfid_warned. cbn [trace set_trace set_scans].
    induction (trace w) as [|ef t IH]; [reflexivity|].
    destruct ef as [[] msg|c|d| |name]; simpl; rewrite ?IH; reflexivity.
  - intros w wd Hpre Hscan.
    assert (Hwd : rfid env (scans wd) = ScanRaises TypeError).
    { pose proof (before_rfid_scans env w) as Hs. rewrite Hpre in Hs.
      simpl in Hs. rewrite Hs. exact Hscan. }
    assert (Ht : tick env w = pace env (clock env (clock_reads w)) (rfid_warned wd)).
    { rewrite tick_split, Hpre.
      exact (bind_ret_run (check_rfid env)
               (fun _ => pace env (clock env (clock_reads w))) wd tt _
               (check_rfid_type_error env wd Hwd)). }
    split; [exact Ht|]. rewrite Ht.
    destruct (returns_pace env (clock env (clock_reads w)) (rfid_warned wd))
      as [[] Hp]. exact Hp.
  - intros n w. apply loop_next.
  - intros Hfs Hscan n w.
    destruct (returns_loop_deaf env n Hfs Hscan w) as [[] Hl]. exact Hl.
  - intros e w wd n Hne Hpre Hscan.
    assert (Hwd : rfid env (scans wd) = ScanRaises e).
    { pose proof (before_rfid_scans env w) as Hs. rewrite Hpre in Hs.
      simpl in Hs. rewrite Hs. exact Hscan. }
    pose proof (check_rfid_other_error env wd e Hne Hwd) as Hc.
    assert (Ht : tick env w = (Raise e, set_scans (S (scans wd)) wd)).
    { rewrite tick_split, Hpre.
      exact (bind_raise_run (check_rfid env)
               (fun _ => pace env (clock env (clock_reads w))) wd e _ Hc). }
    split; [exact Hc|]. split; [exact Ht|].
    exact (bind_raise_run (tick env) (fun _ => loop env n) w e _ Ht).
Qed.

(** A reader that fails with TypeError at every scan: the first iteration
    warns and paces, and a hundred iterations complete. *)
Lemma rfid_type_error_is_survived_witness :
  check_rfid env_deaf (init env_deaf) = (Ret tt, rfid_warned (init env_deaf)) /\
  warnings (trace (snd (tick env_deaf (init env_deaf)))) = [ErrorScanningRfid] /\
  fst (loop env_deaf 100 (init env_deaf)) = Ret tt.
Proof.
  destruct (rfid_type_error_is_survived env_deaf) as (H1 & H2 & _ & H4 & _).
  split; [apply H1; reflexivity|]. split.
  - destruct (H2 (init env_deaf) (snd (before_rfid env_deaf (init env_deaf))))
      as (Ht & _); [reflexivity | reflexivity |].
    rewrite Ht. reflexivity.
  - apply H4.
    + intros path e. unfold env_deaf, usb_dirs; simpl.
      repeat (destruct (String.eqb path _)); intros H; inversion H; reflexivity.
    + intros k. reflexivity.
Defined.

(** C6 as stated fails for a read error of another class. The first scan
    raises TypeError and is survived with a warning; the second raises
    OSError, an I/O error of the bus: it is not caught, no second warning
    is logged, and the loop and [start] end with that exception after two
    scans. *)
Lemma rfid_bus_error_counterexample :
  let r := loop env_bus_error 5 (init env_bus_error) in
  fst r = Raise OSError /\
  scans (snd r) = 2%nat /\
  warnings (trace (snd r)) = [ErrorScanningRfid] /\
  fst (start env_bus_error 5 (init env_bus_error)) = Raise OSError.
Proof. vm_compute. repeat split. Qed.

(** ** The RFID reader is polled at most once per iteration *)

Lemma check_rfid_unfold env :
  check_rfid env
  = try_except (r <- scan_card env ;; after_scan env r)
      (fun e => bool_decide (e = TypeError))
      (fun _ => logging WARNING ErrorScanningRfid).
Proof. reflexivity. Qed.

Lemma check_rfid_scans env w : scans (snd (check_rfid env w)) = S (scans w).
Proof.
  rewrite check_rfid_unfold. unfold try_except, bind, scan_card.
  destruct (rfid env (scans w)) as [scanned folder|e]; cbn -[after_scan].
  - assert (H : keeps_field scans (after_scan env (scanned, folder)))
      by (apply kf_after_scan; intros; reflexivity).
    specialize (H (set_scans (S (scans w)) w)).
    destruct (after_scan env (scanned, folder) (set_scans (S (scans w)) w))
      as [[[]|e] w1]; cbn -[after_scan] in *; [exact H|].
    destruct (bool_decide (e = TypeError)); simpl; exact H.
  - destruct (bool_decide (e = TypeError)); reflexivity.
Qed.

Lemma polls_keeps {A} (m : M A) : keeps_field scans m -> polls 0 m.
Proof. intros H w. rewrite (H w). lia. Qed.

Lemma polls_weaken {A} (m : M A) a b : (a <= b)%nat -> polls a m -> polls b m.
Proof. intros Hab H w. specialize (H w). lia. Qed.

Lemma polls_bind {A C} (m : M A) (k : A -> M C) a b :
  polls a m -> (forall x, polls b (k x)) -> polls (a + b) (bind m k).
Proof.
  intros Hm Hk w. unfold bind. specialize (Hm w).
  destruct (m w) as [[x|e] w1]; simpl in *; [|lia].
  specialize (Hk x w1). lia.
Qed.

Lemma polls_check_rfid env : polls 1 (check_rfid env).
Proof. intros w. rewrite check_rfid_scans. lia. Qed.

Lemma polls_tick env : polls 1 (tick env).
Proof.
  unfold tick.
  apply (polls_bind _ _ 0 1);
    [apply polls_keeps, kf_time_time; intros; reflexivity|].
  intros tick_start.
  apply (polls_bind _ _ 0 1);
    [apply polls_keeps, kf_inactivity_timeout; intros; reflexivity|].
  intros _.
  apply (polls_bind _ _ 0 1);
    [apply polls_keeps, kf_default_movie; intros; reflexivity|].
  intros [|].
  - apply (polls_bind _ _ 1 0); [apply polls_check_rfid|].
    intros _. apply polls_keeps, kf_pace; intros; reflexivity.
  - apply (polls_weaken _ 0 1); [lia|].
    apply polls_keeps, kf_ret.
Qed.

(** X1. An iteration of the loop polls the RFID reader at most once, so
    [n] iterations poll it at most [n] times, whatever the engine, the
    clock, the reader and the file system answer and whether or not the
    loop is ended by an exception. *)
Theorem loop_polls_reader_once_per_tick env n w :
  (scans w <= scans (snd (tick env w)) <= scans w + 1)%nat /\
  (scans w <= scans (snd (loop env n w)) <= scans w + n)%nat.
Proof.
  split; [apply polls_tick|].
  revert w. induction n as [|n IH]; intros w; simpl; [lia|].
  apply (polls_bind _ _ 1 n); [apply polls_tick|]. intros _. exact IH.
Qed.

(** ** The held flag follows the edges of play/pause only *)

Lemma bind_ret_tt_snd {A} (m : M A) w :
  snd ((m ;; ret tt) w) = snd (m w).
Proof. unfold bind. destruct (m w) as [[a|e] w1]; reflexivity. Qed.

Lemma bind_ret_tt_fst {A} (m : M A) w :
  fst ((m ;; ret tt) w) = Ret tt -> exists a, fst (m w) = Ret a.
Proof.
  unfold bind. destruct (m w) as [[a|e] w1]; simpl; [eauto | discriminate].
Qed.

Lemma tick_keeps_flag env : keeps_field play_pause_was_held (tick env).
Proof. apply kf_tick; intros; reflexivity. Qed.

Lemma held_raises_flag env w :
  play_pause_was_held (snd (deliver env BPause Held w)) = true.
Proof. rewrite held_run, trigger_keeps_flag. reflexivity. Qed.

Lemma released_lowers_flag env w :
  play_pause_was_held (snd (deliver env BPause Released w)) = false.
Proof.
  destruct (play_pause_was_held w) eqn:H.
  - rewrite (released_after_hold env w H). reflexivity.
  - rewrite (released_without_hold env w H), trigger_keeps_flag. exact H.
Qed.

Lemma run_event_flag env ev w :
  play_pause_was_held (snd (run_event env ev w))
  = held_after [ev] (play_pause_was_held w).
Proof.
  destruct ev as [b e|]; [|apply tick_keeps_flag].
  unfold run_event. rewrite bind_ret_tt_snd.
  destruct e.
  - simpl. destruct b; apply kf_pressed; intros; reflexivity.
  - destruct b; try reflexivity. apply held_raises_flag.
  - destruct b; try reflexivity. apply released_lowers_flag.
Qed.

(** X2. Whatever else happens in between (presses of the other buttons,
    iterations of the loop, triggers fired or suppressed), after a run of
    events that no exception ended the held flag is up exactly when the
    latest hold or release edge of play/pause was a hold; with no such edge
    it is as it was. *)
Theorem held_flag_tracks_last_pause_edge env evs w :
  fst (run_events env evs w) = Ret tt ->
  play_pause_was_held (snd (run_events env evs w))
  = held_after evs (play_pause_was_held w).
Proof.
  revert w. induction evs as [|ev evs IH]; intros w Hret; [reflexivity|].
  pose proof (run_event_flag env ev w) as Hev.
  simpl in Hret |- *. unfold bind in Hret |- *.
  destruct (run_event env ev w) as [[[]|x] w1]; simpl in *; [|discriminate].
  rewrite (IH w1 Hret). unfold held_after in *. simpl in *. rewrite Hev. reflexivity.
Qed.

(** Fast forward is pressed while play/pause is down, the hold threshold
    is reached and the loop runs an iteration: the flag is up. *)
Lemma held_flag_tracks_last_pause_edge_witness :
  play_pause_was_held
    (snd (run_events env_hold_after_forward
            [Edge BPause Pressed; Edge BFastForward Pressed; Edge BPause Held; Tick]
            (init env_hold_after_forward)))
  = true.
Proof.
  rewrite held_flag_tracks_last_pause_edge; reflexivity.
Defined.

(** ** Timestamps never run backwards *)

Lemma grows_keeps k {A} (m : M A) : keeps_channel k m -> grows k m.
Proof. intros H w. rewrite (H w). apply Qle_refl. Qed.

Lemma grows_keeps_inputs k {A} (m : M A) : keeps_inputs m -> grows k m.
Proof. intros H. apply grows_keeps, keeps_inputs_channel, H. Qed.

Lemma grows_bind k {A C} (m : M A) (f : A -> M C) :
  grows k m -> (forall a, grows k (f a)) -> grows k (bind m f).
Proof.
  intros Hm Hf w. unfold bind. specialize (Hm w).
  destruct (m w) as [[a|e] w1]; simpl in *; [|exact Hm].
  eapply Qle_trans; [exact Hm | apply Hf].
Qed.

Lemma grows_try_except k {A} (m : M A) (c : exn -> bool) (h : exn -> M A) :
  grows k m -> (forall e, grows k (h e)) -> grows k (try_except m c h).
Proof.
  intros Hm Hh w. unfold try_except. specialize (Hm w).
  destruct (m w) as [[a|e] w1]; simpl in *; [exact Hm|].
  destruct (c e); simpl; [|exact Hm].
  eapply Qle_trans; [exact Hm | apply Hh].
Qed.

Lemma grows_input_delay env callback input_id delay k :
  clock_monotone env -> (0 <= delay)%Q -> keeps_inputs callback ->
  grows k (input_delay env callback input_id delay).
Proof.
  intros Hclock Hdelay Hcb w.
  destruct (input_delay_cases env callback input_id delay w) as [[Hlt ->]|[_ ->]].
  - unfold last_trigger at 2. rewrite (Hcb (stamped env input_id w)).
    fold (last_trigger (stamped env input_id w) k).
    destruct (decide (input_id = k)) as [<-|Hne].
    + rewrite last_trigger_stamped.
      pose proof (Hclock (clock_reads w) (S (clock_reads w)) ltac:(lia)). lra.
    + rewrite (last_trigger_stamped_ne env input_id w k Hne). apply Qle_refl.
  - cbn [snd]. rewrite last_trigger_suppressed. apply Qle_refl.
Qed.

Lemma keeps_inputs_field {A} (m : M A) :
  keeps_field last_input_times m -> keeps_inputs m.
Proof. intros H. exact H. Qed.

Lemma grows_deliver env b e k : clock_monotone env -> grows k (deliver env b e).
Proof.
  intros Hclock.
  assert (Hret : grows k (@ret pyval PyNone))
    by (apply grows_keeps_inputs; auto with keeps).
  destruct e.
  - destruct (decide (b = BPause)) as [->|Hb]; [exact Hret|].
    rewrite (pressed_is_gated env b Hb).
    apply grows_input_delay; [exact Hclock | destruct b; discriminate |].
    apply keeps_pressed_action.
  - destruct b; try exact Hret.
    unfold deliver; simpl. unfold play_pause_held.
    apply grows_bind; [apply grows_keeps_inputs; auto with keeps|].
    intros _. apply grows_input_delay; [exact Hclock | discriminate |].
    auto with keeps.
  - destruct b; try exact Hret.
    unfold deliver; simpl. unfold play_pause_released.
    apply grows_bind; [apply grows_keeps_inputs; auto with keeps|].
    intros [|].
    + apply grows_keeps_inputs. keeps.
    + apply grows_input_delay; [exact Hclock | discriminate |].
      auto with keeps.
Qed.

Lemma grows_after_scan env r k : clock_monotone env -> grows k (after_scan env r).
Proof.
  intros Hclock. destruct r as [scanned folder]. unfold after_scan.
  apply grows_bind; [apply grows_keeps_inputs; auto with keeps|].
  intros _. destruct scanned; [|apply grows_keeps_inputs; auto with keeps].
  apply grows_bind;
    [destruct folder; apply grows_keeps_inputs; auto with keeps|].
  intros f.
  apply grows_bind; [apply grows_keeps_inputs; auto with keeps|].
  intros _.
  apply grows_bind; [|intros _; apply grows_keeps_inputs; auto with keeps].
  apply grows_input_delay; [exact Hclock | discriminate |].
  auto with keeps.
Qed.

Lemma grows_tick env k : clock_monotone env -> grows k (tick env).
Proof.
  intros Hclock. unfold tick.
  apply grows_bind; [apply grows_keeps_inputs; auto with keeps|].
  intros tick_start.
  apply grows_bind;
    [apply grows_keeps_inputs, keeps_inputs_field, kf_inactivity_timeout;
     intros; reflexivity|].
  intros _.
  apply grows_bind;
    [apply grows_keeps_inputs, keeps_inputs_field, kf_default_movie;
     intros; reflexivity|].
  intros [|]; [|apply grows_keeps_inputs; auto with keeps].
  apply grows_bind.
  - rewrite check_rfid_unfold. apply grows_try_except.
    + apply grows_bind; [apply grows_keeps_inputs; auto with keeps|].
      intros r. apply grows_after_scan. exact Hclock.
    + intros _. apply grows_keeps_inputs; auto with keeps.
  - intros _. apply grows_keeps_inputs, keeps_inputs_field, kf_pace;
      intros; reflexivity.
Qed.

(** X3. When the clock never runs backwards, no channel's timestamp ever
    decreases: after any run of button edges and loop iterations, ended by
    an exception or not, every channel reads a last trigger time at least
    the one it read before. *)
Theorem timestamps_never_decrease env evs w k :
  clock_monotone env ->
  (last_trigger w k <= last_trigger (snd (run_events env evs w)) k)%Q.
Proof.
  intros Hclock. revert w.
  induction evs as [|ev evs IH]; intros w; [apply Qle_refl|].
  simpl. apply (grows_bind k (run_event env ev) (fun _ => run_events env evs)).
  - destruct ev as [b e|]; [|apply grows_tick; exact Hclock].
    unfold run_event. apply grows_bind; [apply grows_deliver; exact Hclock|].
    intros _. apply grows_keeps_inputs; auto with keeps.
  - intros _. exact IH.
Qed.

(** A clock that counts its readings: after two presses and two
    iterations the control channel reads at least what it read at the
    start. *)
Lemma timestamps_never_decrease_witness :
  (last_trigger (init env_deaf) "control"
   <= last_trigger
        (snd (run_events env_deaf
                [Tick; Edge BFastForward Pressed; Tick; Edge BRewind Pressed]
                (init env_deaf))) "control")%Q.
Proof.
  apply timestamps_never_decrease. intros i j Hij.
  unfold env_deaf; simpl. rewrite <- Zle_Qle. lia.
Defined.

(** ** A callback that raises has still used up the cooldown *)

(** X4. The channel is stamped before the callback runs. So when the gate
    is open and the callback raises, the exception reaches the caller of
    [input_delay], the channel carries the new timestamp all the same, and
    a retry read within the delay of that timestamp is suppressed. *)
Theorem raising_callback_consumes_cooldown env callback retry input_id delay w e :
  keeps_inputs callback ->
  (last_trigger w input_id + delay < clock env (clock_reads w))%Q ->
  fst (callback (stamped env input_id w)) = Raise e ->
  let w1 := snd (input_delay env callback input_id delay w) in
  let stamp := clock env (S (clock_reads w)) in
  fst (input_delay env callback input_id delay w) = Raise e /\
  last_trigger w1 input_id = stamp /\
  ((clock env (clock_reads w1) - stamp <= delay)%Q ->
   input_delay env retry input_id delay w1 = (Ret PyNone, suppressed input_id w1)).
Proof.
  intros Hcb Hlt Hraise w1 stamp. subst w1 stamp.
  pose proof (input_delay_stamps env callback input_id delay w Hcb Hlt) as Hst.
  split; [rewrite (input_delay_fires _ _ _ _ _ Hlt); exact Hraise|].
  split; [exact Hst|].
  intros Hnear. apply input_delay_suppresses. rewrite Hst. lra.
Qed.

(** Button b1 pressed at 1000 for a folder that may not be read raises
    PermissionError; pressed again at 1002 it is suppressed. *)
Lemma raising_callback_consumes_cooldown_witness :
  let w1 := snd (deliver env_locked_retry B1 Pressed (init env_locked_retry)) in
  fst (deliver env_locked_retry B1 Pressed (init env_locked_retry))
    = Raise PermissionError /\
  deliver env_locked_retry B1 Pressed w1 = (Ret PyNone, suppressed "movie" w1).
Proof.
  intros w1.
  destruct (raising_callback_consumes_cooldown env_locked_retry
              (pressed_action env_locked_retry B1) (pressed_action env_locked_retry B1)
              "movie" movie_delay (init env_locked_retry) PermissionError)
    as (H1 & _ & H3).
  - apply keeps_pressed_action.
  - reflexivity.
  - reflexivity.
  - split; [exact H1|]. apply H3. vm_compute. discriminate.
Defined.

(** ** Leaving the loop *)

(** X5. [start] hands the hardware back on an interrupt and only then:
    when the loop raises KeyboardInterrupt, [start] logs the closing
    message, cleans the reader up, closes each of the nine buttons once, in
    the order they were registered, and raises SystemExit; when the loop
    raises anything else, that exception leaves [start] as it is and
    nothing is logged, cleaned up or closed. *)
Theorem start_cleans_up_on_interrupt_only env n w :
  let body := (logging INFO BeginPlayer ;; loop env n) in
  (fst (body w) = Raise KeyboardInterrupt ->
     start env n w
     = (Raise SystemExit,
        set_trace (trace (snd (body w)) ++ shutdown_effects) (snd (body w)))) /\
  (forall e, e <> KeyboardInterrupt -> fst (body w) = Raise e ->
     start env n w = (Raise e, snd (body w))).
Proof.
  intros body. unfold start, try_except. fold body.
  destruct (body w) as [[[]|x] w1]; simpl; split.
  - discriminate.
  - intros e _ H. discriminate.
  - intros H. injection H as ->. simpl.
    unfold bind, logging, emit, raise. simpl.
    unfold shutdown_effects. rewrite <- !app_assoc. reflexivity.
  - intros e Hne H. injection H as ->.
    rewrite bool_decide_eq_false_2 by exact Hne. reflexivity.
Qed.

(** An interrupt during the third scan: [start] ends with the twelve
    effects of the shutdown and SystemExit. *)
Lemma start_cleans_up_on_interrupt_only_witness :
  let r := start env_interrupt 10 (init env_interrupt) in
  fst r = Raise SystemExit /\
  scans (snd r) = 3%nat /\
  skipn (length (trace (snd r)) - 12) (trace (snd r)) = shutdown_effects.
Proof.
  intros r. subst r.
  destruct (start_cleans_up_on_interrupt_only env_interrupt 10 (init env_interrupt))
    as (H & _).
  rewrite H by reflexivity.
  vm_compute. repeat split.
Defined.

(** ** Pacing *)

Lemma sleeps_app (t1 t2 : list effect) : sleeps (t1 ++ t2) = sleeps t1 ++ sleeps t2.
Proof.
  induction t1 as [|e t1 IH]; simpl; [reflexivity|].
  destruct e; simpl; rewrite ?IH; reflexivity.
Qed.

Lemma round_half_even_nonneg n d :
  (0 <= n)%Z -> (0 < d)%Z -> (0 <= round_half_even n d)%Z.
Proof.
  intros Hn Hd. unfold round_half_even.
  assert (Hq : (0 <= n / d)%Z) by (apply Z.div_pos; assumption).
  destruct (2 * (n mod d) ?= d)%Z; [destruct (Z.even (n / d))| |]; lia.
Qed.

Lemma scaled_num_nonneg n e : (0 <= n)%Z -> (0 <= scaled_num n e)%Z.
Proof.
  intros Hn. unfold scaled_num. destruct (0 <=? e)%Z; [exact Hn|].
  apply Z.mul_nonneg_nonneg; [exact Hn | apply Z.pow_nonneg; lia].
Qed.

Lemma scaled_den_pos d e : (0 < scaled_den d e)%Z.
Proof.
  unfold scaled_den. destruct (0 <=? e)%Z eqn:He; [|reflexivity].
  apply Z.leb_le in He. apply Z.mul_pos_pos; [reflexivity|].
  apply Z.pow_pos_nonneg; lia.
Qed.

Lemma fl_with_nonneg n d e : (0 <= n)%Z -> (0 <= fl_with n d e)%Q.
Proof.
  intros Hn. unfold fl_with.
  pose proof (round_half_even_nonneg _ _ (scaled_num_nonneg n e Hn)
                (scaled_den_pos d e)) as Hm.
  destruct (0 <=? e)%Z eqn:He.
  - apply Z.leb_le in He. unfold Qle, inject_Z. simpl.
    assert (0 <= 2 ^ e)%Z by (apply Z.pow_nonneg; lia). nia.
  - unfold Qle. simpl. lia.
Qed.

Lemma fl_pos_nonneg n d : (0 <= n)%Z -> (0 <= fl_pos n d)%Q.
Proof. intros Hn. unfold fl_pos. apply fl_with_nonneg. exact Hn. Qed.

(** Rounding does not change the sign of a number that is not negative. *)
Lemma fl_nonneg q : (0 <= q)%Q -> (0 <= fl q)%Q.
Proof.
  intros Hq. unfold fl. destruct q as [n d]. simpl.
  destruct n as [|p|p].
  - apply Qle_refl.
  - apply fl_pos_nonneg. lia.
  - unfold Qle in Hq. simpl in Hq. lia.
Qed.

(** X6. The pacing step never raises and never asks for a negative sleep.
    With the elapsed time and the tenth of a second as the doubles the
    program computes: when the elapsed time is below the tenth it sleeps
    once, for the double nearest to their difference, which is not
    negative; when it is the tenth or more it does not sleep at all. *)
Theorem pace_never_sleeps_negative env tick_start w :
  let elapsed := fl (clock env (clock_reads w) - tick_start) in
  let tenth := fl (1 / tick_rate) in
  let w' := snd (pace env tick_start w) in
  fst (pace env tick_start w) = Ret tt /\
  (tenth == 3602879701896397 # 36028797018963968)%Q /\
  ((elapsed < tenth)%Q ->
     sleeps (trace w') = sleeps (trace w) ++ [fl (tenth - elapsed)] /\
     (0 <= fl (tenth - elapsed))%Q) /\
  ((tenth <= elapsed)%Q -> trace w' = trace w).
Proof.
  intros elapsed tenth w'. subst w'.
  unfold pace, bind, time_time. cbn [fst snd].
  fold elapsed. fold tenth.
  destruct (Qltb elapsed tenth) eqn:Hq.
  - apply Qltb_lt in Hq. unfold time_sleep, emit. cbn [fst snd trace set_trace
      set_clock_reads]. rewrite sleeps_app. cbn [sleeps].
    split; [reflexivity|]. split; [reflexivity|]. split.
    + intros _. split; [reflexivity|]. apply fl_nonneg. lra.
    + intros H. lra.
  - apply Qltb_ge in Hq. unfold ret. cbn [fst snd trace set_clock_reads].
    split; [reflexivity|]. split; [reflexivity|]. split.
    + intros H. lra.
    + intros _. reflexivity.
Qed.

(** An iteration started at 1000.0 whose clock reads the double 1000.04 at
    the end sleeps 0.060000000000036385 s, the double
    2161727821139149 / 2^55. *)
Lemma pace_never_sleeps_negative_witness :
  exists d, sleeps (trace (snd (pace env_fast_tick 1000 (init env_fast_tick))))
            = [d] /\ (d == 2161727821139149 # 36028797018963968)%Q.
Proof.
  destruct (pace_never_sleeps_negative env_fast_tick 1000 (init env_fast_tick))
    as (_ & _ & H & _).
  destruct H as (Hd & _); [vm_compute; reflexivity|].
  eexists. split; [exact Hd|]. vm_compute. reflexivity.
Defined.

(** ** The playlist builder only reads and logs *)

Ltac peel :=
  repeat match goal with
    | |- keeps_field _ (if ?b then _ else _) => destruct b
    | |- keeps_field _ (match ?x with _ => _ end) => destruct x
    | |- keeps_field _ (bind _ _) => apply kf_bind; [|intros ?]
    | |- keeps_field _ (try_except _ _ _) => apply kf_try_except; [|intros ?]
    end.

Lemma silent_logging lvl msg :
  keeps_field (fun w => vlc_calls (trace w)) (logging lvl msg).
Proof.
  intros w. unfold logging, emit. simpl. rewrite vlc_calls_app. apply app_nil_r.
Qed.

Lemma silent_create_media_list env path shuffle :
  keeps_field (fun w => vlc_calls (trace w)) (create_media_list env path shuffle).
Proof.
  unfold create_media_list, get_movies. peel;
    first [ apply silent_logging | apply kf_ret | apply kf_os_listdir
          | apply kf_random_shuffle; intros; reflexivity ].
Qed.

(** X9. Building a media list is invisible to the player: whatever the
    directory and the shuffle flag, and whether the build returns or
    raises, it sends the engine no command and leaves the list player's
    current list and mode, the last action time, the channels' timestamps
    and the held flag as they were. *)
Theorem create_media_list_only_reads_and_logs env path shuffle w :
  let w' := snd (create_media_list env path shuffle w) in
  vlc_calls (trace w') = vlc_calls (trace w) /\
  lp_media_list w' = lp_media_list w /\
  lp_playback_mode w' = lp_playback_mode w /\
  last_action_time w' = last_action_time w /\
  last_input_times w' = last_input_times w /\
  play_pause_was_held w' = play_pause_was_held w.
Proof.
  intros w'. subst w'.
  split; [apply (silent_create_media_list env path shuffle w)|].
  repeat split;
    match goal with
    | |- ?f _ = ?f w =>
        apply (kf_create_media_list f); intros; reflexivity
    end.
Qed.

(** ** The iteration of the loop *)

Lemma play_media_list_run env media_list loop w :
  play_media_list env media_list loop w
  = (Ret PyNone,
     set_trace
       (trace w ++ [Vlc (set_media_list media_list);
                    Log INFO (PlayingMediaList (length media_list));
                    Vlc (set_playback_mode (if loop then 1 else 0));
                    Log DEBUG (LoopingSetTo loop);
                    Vlc lp_next; Sleep 1; Vlc lp_play])
       (set_lp_playback_mode (if loop then 1 else 0)
          (set_lp_media_list media_list
             (set_last_action_time (clock env (clock_reads w))
                (set_clock_reads (S (clock_reads w)) w))))).
Proof.
  unfold play_media_list, bind, time_time, modify, vlc, logging, time_sleep, emit.
  destruct loop; simpl; rewrite <- !app_assoc; reflexivity.
Qed.

(** X7. Any activation of a media list restarts the inactivity timer: the
    list player gets the list and the mode, last action time becomes the
    clock reading taken, and the inactivity check of a tick started at most
    [inactive_timeout * 60] seconds after that reading leaves the new list
    alone. *)
Theorem play_media_list_defers_timeout env media_list loop w next :
  let now := clock env (clock_reads w) in
  let w' := snd (play_media_list env media_list loop w) in
  (next - now <= inactive_timeout w * 60)%Q ->
  lp_media_list w' = media_list /\
  lp_playback_mode w' = (if loop then 1 else 0)%Z /\
  last_action_time w' = now /\
  inactivity_timeout next w' = (Ret tt, w').
Proof.
  intros now w' H. subst now w'. rewrite play_media_list_run. simpl.
  split; [reflexivity|]. split; [reflexivity|]. split; [reflexivity|].
  apply inactivity_timeout_idle. simpl. lra.
Qed.

(** A list activated at 1000 with the 300 minute timeout is still there
    after the check of the tick started at 19000. *)
Lemma play_media_list_defers_timeout_witness :
  lp_media_list
    (snd (inactivity_timeout 19000
            (snd (play_media_list env_idle ["/media/usb/b1/a.mp4"] true
                    (init env_idle)))))
  = ["/media/usb/b1/a.mp4"].
Proof.
  destruct (play_media_list_defers_timeout env_idle ["/media/usb/b1/a.mp4"] true
              (init env_idle) 19000) as (H1 & _ & _ & H4).
  - vm_compute. discriminate.
  - rewrite H4. exact H1.
Defined.

(** The world in which the fallback builds the default list: the engine
    was looked at twice, a tenth of a second apart. *)
Lemma default_movie_not_playing env w :
  in_playing (engine_state env (state_reads w)) = false ->
  in_playing (engine_state env (S (state_reads w))) = false ->
  default_movie env w
  = (media_list <- create_media_list env default_dir false ;;
     play_media_list env media_list true ;;
     ret Fallthrough)
      (set_trace
         (trace w ++ [Log DEBUG (MediaPlayerState (engine_state env (state_reads w)));
                      Sleep (1 # 10); Log INFO PlayingDefaultMovie])
         (set_state_reads (S (S (state_reads w))) w)).
Proof.
  intros H1 H2.
  unfold default_movie, bind at 1, lp_get_state. cbn [fst snd].
  unfold bind at 1, logging, emit. cbn [fst snd].
  rewrite H1. cbn [negb].
  unfold bind at 1, time_sleep, emit. cbn [fst snd].
  unfold bind at 1, lp_get_state.
  cbn [fst snd state_reads set_state_reads set_trace].
  rewrite H2.
  unfold bind at 1, logging, emit.
  cbn [fst snd state_reads set_state_reads set_trace trace].
  rewrite <- !app_assoc. reflexivity.
Qed.

(** X8. The fallback to the default movie: when the engine reports a
    state outside 1..4 at both looks, the default directory is built
    without shuffle and activated in loop mode, so the list player holds
    the recognised files of the directory in listing order (none when the
    directory is missing) with playback mode 1, and the iteration goes on
    to the RFID check. *)
Theorem default_movie_falls_back env w :
  in_playing (engine_state env (state_reads w)) = false ->
  in_playing (engine_state env (S (state_reads w))) = false ->
  (forall e, fs env default_dir = ListdirRaises e -> e = FileNotFoundError) ->
  let w' := snd (default_movie env w) in
  let movies :=
    match fs env default_dir with
    | Entries names => map (os_path_join default_dir) (List.filter is_movie_format names)
    | ListdirRaises _ => []
    end in
  fst (default_movie env w) = Ret Fallthrough /\
  lp_media_list w' = movies /\
  lp_playback_mode w' = 1%Z /\
  last_action_time w' = clock env (clock_reads w) /\
  vlc_calls (trace w')
  = vlc_calls (trace w) ++ [set_media_list movies; set_playback_mode 1; lp_next; lp_play].
Proof.
  intros H1 H2 Hfs w' movies. subst w' movies.
  rewrite (default_movie_not_playing env w H1 H2).
  set (w2 := set_trace _ _).
  assert (Hb : exists l w3,
             create_media_list env default_dir false w2 = (Ret l, w3) /\
             l = match fs env default_dir with
                 | Entries names =>
                     map (os_path_join default_dir) (List.filter is_movie_format names)
                 | ListdirRaises _ => []
                 end /\
             vlc_calls (trace w3) = vlc_calls (trace w) /\
             clock_reads w3 = clock_reads w).
  { pose proof (silent_create_media_list env default_dir false w2) as Hv.
    assert (Hr : clock_reads (snd (create_media_list env default_dir false w2))
                 = clock_reads w2)
      by (apply (kf_create_media_list clock_reads); intros; reflexivity).
    assert (Hw2 : vlc_calls (trace w2) = vlc_calls (trace w))
      by (subst w2; cbn [trace set_trace]; rewrite vlc_calls_app; apply app_nil_r).
    cbv beta in Hv. rewrite Hw2 in Hv.
    destruct (fs env default_dir) as [names|e] eqn:Hdir.
    - pose proof (create_media_list_listed env default_dir names w2 Hdir) as Hl.
      destruct (create_media_list env default_dir false w2) as [r w3].
      cbn [fst snd] in *. subst r. eexists; exists w3.
      split; [reflexivity|]. split; [reflexivity|]. split; [exact Hv|exact Hr].
    - rewrite (Hfs e eq_refl) in Hdir.
      rewrite (create_media_list_missing env default_dir false w2 Hdir) in *.
      exists []; eexists. split; [reflexivity|]. split; [reflexivity|].
      split; [exact Hv|exact Hr]. }
  destruct Hb as (l & w3 & Hc & Hl & Hv & Hr).
  rewrite (bind_ret_run _ _ _ _ _ Hc).
  rewrite (bind_ret_run _ _ _ _ _ (play_media_list_run env l true w3)).
  cbn [fst snd ret lp_media_list lp_playback_mode last_action_time trace
       set_trace set_lp_playback_mode set_lp_media_list set_last_action_time
       set_clock_reads].
  rewrite vlc_calls_app, Hv, Hr, <- Hl. cbn [vlc_calls].
  repeat (split; [reflexivity|]). reflexivity.
Qed.

(** The engine has ended: the two clips of the home directory are played
    in a loop. *)
Lemma default_movie_falls_back_witness :
  lp_media_list (snd (default_movie env_ended (init env_ended)))
  = ["/home/pi/peasyplayer/intro.mp4"; "/home/pi/peasyplayer/loop.mkv"].
Proof.
  destruct (default_movie_falls_back env_ended (init env_ended))
    as (_ & H & _); [reflexivity | reflexivity | |].
  - intros e He. vm_compute in He. discriminate.
  - rewrite H. reflexivity.
Defined.

Lemma default_movie_transition env w :
  in_playing (engine_state env (state_reads w)) = false ->
  in_playing (engine_state env (S (state_reads w))) = true ->
  default_movie env w
  = (Ret Continue,
     set_trace
       (trace w ++ [Log DEBUG (MediaPlayerState (engine_state env (state_reads w)));
                    Sleep (1 # 10)])
       (set_state_reads (S (S (state_reads w))) w)).
Proof.
  intros H1 H2.
  unfold default_movie, bind at 1, lp_get_state. cbn [fst snd].
  unfold bind at 1, logging, emit. cbn [fst snd].
  rewrite H1. cbn [negb].
  unfold bind at 1, time_sleep, emit. cbn [fst snd].
  unfold bind at 1, lp_get_state.
  cbn [fst snd state_reads set_state_reads set_trace].
  rewrite H2. unfold ret.
  cbn [fst snd state_reads set_state_reads set_trace trace].
  rewrite <- !app_assoc. reflexivity.
Qed.

Lemma default_movie_playing env w :
  in_playing (engine_state env (state_reads w)) = true ->
  default_movie env w
  = (Ret Fallthrough,
     set_trace
       (trace w ++ [Log DEBUG (MediaPlayerState (engine_state env (state_reads w)))])
       (set_state_reads (S (state_reads w)) w)).
Proof.
  intros H1.
  unfold default_movie, bind at 1, lp_get_state. cbn [fst snd].
  unfold bind at 1, logging, emit. cbn [fst snd].
  rewrite H1. reflexivity.
Qed.

Lemma check_rfid_not_scanned env w folder :
  rfid env (scans w) = ScanReturns false folder ->
  check_rfid env w
  = (Ret tt,
     set_trace (trace w ++ [Log DEBUG (RawFolderName folder)])
       (set_scans (S (scans w)) w)).
Proof.
  intros H. unfold check_rfid, try_except, bind, scan_card. rewrite H. reflexivity.
Qed.

(** The inactivity check returns, and leaves the old world or the reset
    one. *)
Lemma inactivity_timeout_cases tick_start w :
  inactivity_timeout tick_start w = (Ret tt, reset_player tick_start w) \/
  inactivity_timeout tick_start w = (Ret tt, w).
Proof.
  destruct (Qlt_le_dec (last_action_time w + inactive_timeout w * 60) tick_start)
    as [H|H].
  - left. apply inactivity_timeout_fires. exact H.
  - right. apply inactivity_timeout_idle. exact H.
Qed.

Lemma reset_player_plays_nothing tick_start w :
  fired lp_play (reset_player tick_start w) = fired lp_play w.
Proof.
  unfold fired, reset_player. cbn [trace set_last_action_time set_trace].
  rewrite vlc_calls_app, count_occ_app. cbn. lia.
Qed.

Lemma reset_player_sleeps tick_start w :
  sleeps (trace (reset_player tick_start w)) = sleeps (trace w).
Proof.
  unfold reset_player. cbn [trace set_last_action_time set_trace].
  rewrite sleeps_app. apply app_nil_r.
Qed.

(** X10. An engine caught between two states: when the first look of an
    iteration finds no playing state and the second, a tenth of a second
    later, finds one, the iteration ends there. It neither plays the
    default movie nor polls the RFID reader nor reads the clock for the
    pacing sleep; the tenth of a second is its only sleep. *)
Theorem tick_continues_on_transition env w :
  in_playing (engine_state env (state_reads w)) = false ->
  in_playing (engine_state env (S (state_reads w))) = true ->
  let w' := snd (tick env w) in
  fst (tick env w) = Ret tt /\
  scans w' = scans w /\
  clock_reads w' = S (clock_reads w) /\
  fired lp_play w' = fired lp_play w /\
  sleeps (trace w') = sleeps (trace w) ++ [1 # 10].
Proof.
  intros H1 H2 w'. subst w'. rewrite tick_checks_inactivity_first.
  set (w0 := set_clock_reads (S (clock_reads w)) w).
  set (ts := clock env (clock_reads w)).
  assert (Hi : exists wi,
             inactivity_timeout ts w0 = (Ret tt, wi) /\
             state_reads wi = state_reads w /\ scans wi = scans w /\
             clock_reads wi = S (clock_reads w) /\
             fired lp_play wi = fired lp_play w /\
             sleeps (trace wi) = sleeps (trace w)).
  { destruct (inactivity_timeout_cases ts w0) as [Hc|Hc]; rewrite Hc;
      eexists; (split; [reflexivity|]); subst w0.
    - split; [reflexivity|]. split; [reflexivity|]. split; [reflexivity|].
      split; [rewrite reset_player_plays_nothing | rewrite reset_player_sleeps];
        reflexivity.
    - repeat (split; [reflexivity|]). reflexivity. }
  destruct Hi as (wi & Hi & Hs & Hsc & Hcl & Hf & Hsl).
  rewrite (bind_ret_run _ _ _ _ _ Hi).
  rewrite <- Hs in H1, H2.
  rewrite (bind_ret_run _ _ _ _ _ (default_movie_transition env wi H1 H2)).
  unfold ret, fired.
  cbn [fst snd scans clock_reads trace set_trace set_state_reads].
  rewrite vlc_calls_app, sleeps_app. cbn [vlc_calls sleeps].
  rewrite app_nil_r. fold (fired lp_play wi).
  rewrite Hsc, Hcl, Hf, Hsl. repeat (split; [reflexivity|]). reflexivity.
Qed.

(** The engine is opening while a card lies on the reader: the iteration
    ends without a poll. *)
Lemma tick_continues_on_transition_witness :
  scans (snd (tick env_transition (init env_transition))) = 0%nat /\
  sleeps (trace (snd (tick env_transition (init env_transition)))) = [1 # 10]%Q.
Proof.
  destruct (tick_continues_on_transition env_transition (init env_transition))
    as (_ & H1 & _ & _ & H2); [reflexivity | reflexivity |].
  split; [exact H1 | exact H2].
Defined.

Lemma silent_time_sleep d :
  keeps_field (fun w => vlc_calls (trace w)) (time_sleep d).
Proof.
  intros w. unfold time_sleep, emit. simpl. rewrite vlc_calls_app. apply app_nil_r.
Qed.

Lemma silent_pace env tick_start :
  keeps_field (fun w => vlc_calls (trace w)) (pace env tick_start).
Proof.
  unfold pace. peel;
    first [ apply silent_time_sleep | apply kf_ret
          | apply kf_time_time; intros; reflexivity ].
Qed.

(** X11. A quiet iteration changes nothing: when the tick starts within
    the inactivity timeout of the last action, the engine reports a
    playing state (1 to 4) and the reader reports no card, the iteration
    completes, sends the engine no command and leaves the list player's
    list and mode, the last action time, the channels' timestamps and the
    held flag as they were. *)
Theorem quiet_tick_changes_nothing env w folder :
  (clock env (clock_reads w) <= last_action_time w + inactive_timeout w * 60)%Q ->
  in_playing (engine_state env (state_reads w)) = true ->
  rfid env (scans w) = ScanReturns false folder ->
  let w' := snd (tick env w) in
  fst (tick env w) = Ret tt /\
  vlc_calls (trace w') = vlc_calls (trace w) /\
  lp_media_list w' = lp_media_list w /\
  lp_playback_mode w' = lp_playback_mode w /\
  last_action_time w' = last_action_time w /\
  last_input_times w' = last_input_times w /\
  play_pause_was_held w' = play_pause_was_held w.
Proof.
  intros Hidle Hplay Hscan w'. subst w'. rewrite tick_checks_inactivity_first.
  set (w0 := set_clock_reads (S (clock_reads w)) w).
  rewrite (bind_ret_run _ _ _ _ _
             (inactivity_timeout_idle (clock env (clock_reads w)) w0 Hidle)).
  rewrite (bind_ret_run _ _ _ _ _ (default_movie_playing env w0 Hplay)).
  set (w1 := set_trace _ _).
  rewrite (bind_ret_run _ _ _ _ _ (check_rfid_not_scanned env w1 folder Hscan)).
  set (w2 := set_trace _ _).
  destruct (returns_pace env (clock env (clock_reads w)) w2) as [[] Hp].
  pose proof (silent_pace env (clock env (clock_reads w)) w2) as Hv.
  cbv beta in Hv.
  split; [exact Hp|]. split.
  - rewrite Hv. subst w2 w1 w0. cbn [trace set_trace set_scans set_state_reads
      set_clock_reads]. rewrite !vlc_calls_app. cbn [vlc_calls].
    rewrite !app_nil_r. reflexivity.
  - repeat split;
      match goal with
      | |- ?f _ = ?f w =>
          transitivity (f w2);
          [apply (kf_pace f); intros; reflexivity | reflexivity]
      end.
Qed.

(** Nothing to do at 1000: the fullscreen call of the start is still the
    only command the engine has received. *)
Lemma quiet_tick_changes_nothing_witness :
  vlc_calls (trace (snd (tick env_exact (init env_exact)))) = [set_fullscreen true].
Proof.
  destruct (quiet_tick_changes_nothing env_exact (init env_exact) None)
    as (_ & H & _).
  - vm_compute. discriminate.
  - reflexivity.
  - reflexivity.
  - rewrite H. reflexivity.
Defined.

(** ** Shuffling keeps the entries *)

Lemma create_media_list_run_listed env path names shuffle w :
  fs env path = Entries names ->
  shuffle_permutes env ->
  exists l w',
    create_media_list env path shuffle w = (Ret l, w') /\
    Permutation l (map (os_path_join path) (List.filter is_movie_format names)) /\
    (shuffle = false ->
     l = map (os_path_join path) (List.filter is_movie_format names)) /\
    (shuffle = true ->
     l = rng env (shuffles w)
           (map (os_path_join path) (List.filter is_movie_format names))).
Proof.
  intros Hdir Hperm.
  unfold create_media_list, get_movies, bind, try_except, os_listdir, logging,
    emit, random_shuffle, ret.
  rewrite Hdir. destruct shuffle; cbn -[is_movie_format os_path_join];
    rewrite fold_add_media; cbn [app]; do 2 eexists;
    (split; [reflexivity|]).
  - split; [apply Hperm|]. split; [discriminate | reflexivity].
  - split; [reflexivity|]. split; [reflexivity | discriminate].
Qed.

(** X12. Shuffling changes the order and nothing else: for a directory
    that lists [names], with a shuffle that permutes, the builder returns,
    with or without shuffle, a list with exactly the recognised entries of
    the directory, each as often as it is listed. Without shuffle the list
    is in listing order; with shuffle it is what the shuffle made of the
    list in listing order. In particular a directory without a recognised
    file gives the empty list, not an error. *)
Theorem create_media_list_permutes_the_recognised env path names shuffle w :
  fs env path = Entries names ->
  shuffle_permutes env ->
  exists l,
    fst (create_media_list env path shuffle w) = Ret l /\
    Permutation l (map (os_path_join path) (List.filter is_movie_format names)) /\
    length l = length (List.filter is_movie_format names) /\
    (shuffle = false ->
     l = map (os_path_join path) (List.filter is_movie_format names)) /\
    (shuffle = true ->
     l = rng env (shuffles w)
           (map (os_path_join path) (List.filter is_movie_format names))) /\
    (List.filter is_movie_format names = [] -> l = []).
Proof.
  intros Hdir Hperm.
  destruct (create_media_list_run_listed env path names shuffle w Hdir Hperm)
    as (l & w' & Hrun & Hl & Hoff & Hon).
  exists l. rewrite Hrun. split; [reflexivity|]. split; [exact Hl|]. split.
  - rewrite (Permutation_length Hl). apply length_map.
  - split; [exact Hoff|]. split; [exact Hon|].
    intros Hnone. rewrite Hnone in Hl. apply Permutation_nil.
    symmetry. exact Hl.
Qed.

(** Folder b1 with the reversing shuffle: the two movies, last first. *)
Lemma create_media_list_permutes_the_recognised_witness :
  exists l,
    fst (create_media_list env_press "/media/usb/b1" true (init env_press)) = Ret l /\
    Permutation l ["/media/usb/b1/a.mp4"; "/media/usb/b1/c.mkv"].
Proof.
  destruct (create_media_list_permutes_the_recognised env_press "/media/usb/b1"
              ["a.mp4"; "b.txt"; "c.mkv"] true (init env_press))
    as (l & H1 & H2 & _).
  - reflexivity.
  - intros k l. symmetry. apply Permutation_rev.
  - exists l. split; [exact H1 | exact H2].
Defined.

(** ** Folder names *)

Section Strip.

Variable ps : list (list ascii).
Hypothesis ps_nonempty : Forall (fun p => p <> []) ps.

Lemma drop_prefix_app p l r : drop_prefix p l = Some r <-> l = p ++ r.
Proof.
  revert l. induction p as [|a p IH]; intros l; simpl.
  - split; [intros H; injection H as ->; reflexivity | intros ->; reflexivity].
  - destruct l as [|b l]; [split; discriminate|].
    destruct (Ascii.eqb a b) eqn:Hab.
    + apply Ascii.eqb_eq in Hab. subst b. rewrite IH.
      split; [intros ->; reflexivity | intros H; injection H as H; exact H].
    + apply Ascii.eqb_neq in Hab.
      split; [discriminate | intros H; injection H as H _; congruence].
Qed.

Lemma drop_first_some l r :
  drop_first ps l = Some r -> exists p, In p ps /\ l = p ++ r.
Proof.
  clear ps_nonempty. induction ps as [|p ps' IH]; simpl; [discriminate|].
  destruct (drop_prefix p l) as [r'|] eqn:Hp.
  - intros H. injection H as ->. apply drop_prefix_app in Hp. eauto.
  - intros H. destruct (IH H) as (q & Hq & Hl). eauto.
Qed.

Lemma drop_first_none l p r : drop_first ps l = None -> In p ps -> l <> p ++ r.
Proof.
  clear ps_nonempty. induction ps as [|q ps' IH]; simpl; [intros _ []|].
  destruct (drop_prefix q l) as [r'|] eqn:Hq; [discriminate|].
  intros H [->|Hin] Hl.
  - apply drop_prefix_app in Hl. congruence.
  - exact (IH H Hin Hl).
Qed.

Lemma drop_first_shorter l r : drop_first ps l = Some r -> (length r < length l)%nat.
Proof.
  intros H. destruct (drop_first_some l r H) as (p & Hin & ->).
  rewrite List.Forall_forall in ps_nonempty. specialize (ps_nonempty p Hin).
  rewrite length_app. destruct p; [congruence | simpl; lia].
Qed.

(** With enough fuel nothing of [ps] is left at the front. *)
Lemma lstrip_upto_clean n l :
  (length l <= n)%nat -> drop_first ps (lstrip_upto ps n l) = None.
Proof.
  revert l. induction n as [|n IH]; intros l Hn; simpl.
  - destruct l; [|simpl in Hn; lia].
    destruct (drop_first ps []) as [r|] eqn:H; [|reflexivity].
    apply drop_first_shorter in H. simpl in H. lia.
  - destruct (drop_first ps l) as [r|] eqn:H; [|exact H].
    apply IH. apply drop_first_shorter in H. lia.
Qed.

Lemma lstrip_clean l : drop_first ps (lstrip ps l) = None.
Proof. apply lstrip_upto_clean. lia. Qed.

Lemma lstrip_fixed l : drop_first ps l = None -> lstrip ps l = l.
Proof.
  clear ps_nonempty. intros H. unfold lstrip.
  destruct (length l); simpl; [reflexivity|]. rewrite H. reflexivity.
Qed.

(** What is left is the end of the list. *)
Lemma lstrip_upto_suffix n l : exists pre, l = pre ++ lstrip_upto ps n l.
Proof.
  clear ps_nonempty. revert l. induction n as [|n IH]; intros l; simpl.
  - exists []. reflexivity.
  - destruct (drop_first ps l) as [r|] eqn:H; [|exists []; reflexivity].
    destruct (drop_first_some l r H) as (p & _ & ->).
    destruct (IH r) as [pre Hpre]. exists (p ++ pre).
    rewrite <- app_assoc, <- Hpre. reflexivity.
Qed.

(** A list that starts with none of [ps] has no beginning that does. *)
Lemma clean_prefix u suf : drop_first ps (u ++ suf) = None -> drop_first ps u = None.
Proof.
  clear ps_nonempty. intros H.
  destruct (drop_first ps u) as [r|] eqn:Hu; [|reflexivity].
  destruct (drop_first_some u r Hu) as (p & Hin & ->).
  exfalso. apply (drop_first_none _ p (r ++ suf) H Hin).
  rewrite app_assoc. reflexivity.
Qed.

End Strip.

Lemma whitespace_nonempty : Forall (fun p => p <> []) whitespace.
Proof. unfold whitespace. simpl. repeat constructor; discriminate. Qed.

Lemma whitespace_rev_nonempty : Forall (fun p => p <> []) (map (@rev ascii) whitespace).
Proof. unfold whitespace. simpl. repeat constructor; discriminate. Qed.

Lemma rstrip_prefix ps l : exists suf, l = rstrip ps l ++ suf.
Proof.
  unfold rstrip, lstrip.
  destruct (lstrip_upto_suffix (map (@rev ascii) ps) (length (rev l)) (rev l))
    as [pre Hpre].
  exists (rev pre). rewrite <- rev_app_distr, <- Hpre, List.rev_involutive. reflexivity.
Qed.

Lemma rstrip_idempotent ps l :
  Forall (fun p => p <> []) (map (@rev ascii) ps) ->
  rstrip ps (rstrip ps l) = rstrip ps l.
Proof.
  intros Hne. unfold rstrip. rewrite List.rev_involutive.
  rewrite (lstrip_fixed _ (lstrip (map (@rev ascii) ps) (rev l))
             (lstrip_clean _ Hne (rev l))).
  reflexivity.
Qed.

(** Stripping a stripped name changes nothing. *)
Lemma strip_idempotent s : strip (strip s) = strip s.
Proof.
  unfold strip. rewrite list_ascii_of_string_of_list_ascii.
  set (t := lstrip whitespace (list_ascii_of_string s)).
  assert (Ht : drop_first whitespace t = None)
    by apply (lstrip_clean _ whitespace_nonempty).
  destruct (rstrip_prefix whitespace t) as [suf Hsuf].
  rewrite (lstrip_fixed whitespace (rstrip whitespace t)).
  - rewrite (rstrip_idempotent _ _ whitespace_rev_nonempty). reflexivity.
  - apply (clean_prefix whitespace _ suf). rewrite <- Hsuf. exact Ht.
Qed.

(** No-break spaces and a line separator around a name go with the
    blanks. *)
Example strip_unicode_white_space :
  strip (String (ascii_of_nat 194) (String (ascii_of_nat 160)
           (" b2 " +:+ String (ascii_of_nat 226) (String (ascii_of_nat 128)
              (String (ascii_of_nat 168) " ")))))
  = "b2".
Proof. reflexivity. Qed.

(** X13. White space around a folder name does not matter: playing the
    movies of a folder does exactly what playing the movies of the stripped
    name does, for every folder name, keyword arguments and world. So the
    name the RFID check has already stripped is not changed by the second
    strip. *)
Theorem play_movies_from_folder_ignores_padding env folder kw_loop kw_shuffle w :
  play_movies_from_folder env folder kw_loop kw_shuffle w
  = play_movies_from_folder env (strip folder) kw_loop kw_shuffle w.
Proof.
  unfold play_movies_from_folder. rewrite strip_idempotent. reflexivity.
Qed.

(** X14. A folder that is not there empties the player: when the directory
    of the stripped folder name under the movies directory is missing,
    playing the folder still activates a media list, the empty one, so the
    list player loses the list it had, gets the loop mode asked for, is
    told to go to the next item and to play, and the last action time
    becomes the clock reading. *)
Theorem missing_folder_empties_the_player env folder loop shuffle w :
  fs env (os_path_join movies_dir (strip folder)) = ListdirRaises FileNotFoundError ->
  let w' := snd (play_movies_from_folder env folder (Some loop) (Some shuffle) w) in
  fst (play_movies_from_folder env folder (Some loop) (Some shuffle) w) = Ret PyNone /\
  lp_media_list w' = [] /\
  lp_playback_mode w' = (if loop then 1 else 0)%Z /\
  last_action_time w' = clock env (clock_reads w) /\
  vlc_calls (trace w')
  = vlc_calls (trace w)
    ++ [set_media_list []; set_playback_mode (if loop then 1 else 0); lp_next; lp_play].
Proof.
  intros Hdir w'. subst w'. unfold play_movies_from_folder.
  rewrite (bind_ret_run _ _ _ _ _
             (create_media_list_missing env _ shuffle w Hdir)).
  rewrite play_media_list_run.
  cbn [fst snd lp_media_list lp_playback_mode last_action_time trace set_trace
       set_lp_playback_mode set_lp_media_list set_last_action_time
       set_clock_reads clock_reads].
  rewrite !vlc_calls_app. cbn [vlc_calls]. rewrite app_nil_r.
  repeat (split; [reflexivity|]). reflexivity.
Qed.

(** After button b1 started its folder, a card for the folder b9 (its
    payload padded with a blank and a no-break space), which is not on the
    stick, leaves the player with no movie. *)
Lemma missing_folder_empties_the_player_witness :
  let w1 := snd (deliver env_two_buttons B1 Pressed (init env_two_buttons)) in
  lp_media_list w1 = ["/media/usb/b1/c.mkv"; "/media/usb/b1/a.mp4"] /\
  lp_media_list
    (snd (play_movies_from_folder env_two_buttons (" b9" +:+ nbsp) (Some true)
            (Some true) w1))
  = [].
Proof.
  intros w1. split; [reflexivity|].
  destruct (missing_folder_empties_the_player env_two_buttons (" b9" +:+ nbsp)
              true true w1)
    as (_ & H & _); [reflexivity | exact H].
Defined.

(** ** Recognised formats *)

Lemma append_assoc (a b c : string) : (a +:+ b) +:+ c = a +:+ b +:+ c.
Proof.
  induction a as [|x a IH]; [reflexivity|].
  change (String x ((a +:+ b) +:+ c) = String x (a +:+ b +:+ c)).
  rewrite IH. reflexivity.
Qed.

(** X15. The format test looks for a marker anywhere in the name, not for
    an extension: a name that contains a recognised name is recognised
    too. So every name with a recognised name inside it (a.mp4.part, or a
    directory called clips.mp4.d) is kept. *)
Theorem is_movie_format_anywhere name pre post :
  is_movie_format name = true ->
  is_movie_format (pre +:+ name +:+ post) = true.
Proof.
  unfold is_movie_format. rewrite !is_movie_format_from_iff.
  intros (f & Hin & Hc). exists f. split; [exact Hin|].
  apply contains_iff in Hc. destruct Hc as (a & b & ->).
  apply contains_iff. exists (pre +:+ a), (b +:+ post).
  rewrite !append_assoc. reflexivity.
Qed.

Lemma is_movie_format_anywhere_witness :
  is_movie_format ("old-" +:+ "a.mp4" +:+ ".part") = true.
Proof. apply is_movie_format_anywhere. reflexivity. Defined.

(** ** From an input to the list player *)

Lemma play_folder_run env folder names w :
  fs env (os_path_join movies_dir (strip folder)) = Entries names ->
  shuffle_permutes env ->
  exists l w',
    play_movies_from_folder env folder (Some true) (Some true) w = (Ret PyNone, w') /\
    Permutation l (map (os_path_join (os_path_join movies_dir (strip folder)))
                     (List.filter is_movie_format names)) /\
    lp_media_list w' = l /\
    lp_playback_mode w' = 1%Z /\
    last_input_times w' = last_input_times w /\
    last_action_time w' = clock env (clock_reads w).
Proof.
  intros Hdir Hperm. unfold play_movies_from_folder.
  destruct (create_media_list_run_listed env _ names true w Hdir Hperm)
    as (l & w1 & Hrun & Hl & _).
  assert (Hc : clock_reads w1 = clock_reads w).
  { change w1 with (snd (Ret l, w1)). rewrite <- Hrun.
    apply (kf_create_media_list clock_reads); intros; reflexivity. }
  assert (Hi : last_input_times w1 = last_input_times w).
  { change w1 with (snd (Ret l, w1)). rewrite <- Hrun.
    apply (kf_create_media_list last_input_times); intros; reflexivity. }
  exists l. eexists.
  rewrite (bind_ret_run _ _ _ _ _ Hrun), play_media_list_run.
  split; [reflexivity|]. split; [exact Hl|].
  cbn [lp_media_list lp_playback_mode last_input_times last_action_time
       set_trace set_lp_playback_mode set_lp_media_list set_last_action_time
       set_clock_reads].
  rewrite Hc. repeat (split; [reflexivity|]). split; [exact Hi | reflexivity].
Qed.

Lemma movie_button_key b :
  channel_of b = "movie" ->
  b <> BPause /\
  strip (button_key b) = button_key b /\
  delay_of b = movie_delay.
Proof.
  destruct b; intros H; try discriminate H;
    (split; [discriminate|]); split; reflexivity.
Qed.

(** X16. A movie button starts its own folder: when the press of a movie
    button passes the gate and the folder named after the button lists
    [names], with a shuffle that permutes, the press returns, the list
    player holds exactly the recognised files of that folder in some order
    with playback mode 1, the channel "movie" carries the clock reading
    taken after the test, and the last action time is the reading after
    that. *)
Theorem movie_button_starts_its_folder env b names w :
  channel_of b = "movie" ->
  (movie_delay < clock env (clock_reads w) - last_trigger w "movie")%Q ->
  fs env (os_path_join movies_dir (button_key b)) = Entries names ->
  shuffle_permutes env ->
  let w' := snd (deliver env b Pressed w) in
  fst (deliver env b Pressed w) = Ret PyNone /\
  Permutation (lp_media_list w')
    (map (os_path_join (os_path_join movies_dir (button_key b)))
       (List.filter is_movie_format names)) /\
  lp_playback_mode w' = 1%Z /\
  last_trigger w' "movie" = clock env (S (clock_reads w)) /\
  last_action_time w' = clock env (S (S (clock_reads w))).
Proof.
  intros Hb Hopen Hdir Hperm w'. subst w'.
  destruct (movie_button_key b Hb) as (Hne & Hstrip & Hdelay).
  rewrite (pressed_is_gated env b Hne), Hb, Hdelay.
  rewrite input_delay_fires by lra.
  assert (Hact : pressed_action env b
                 = play_movies_from_folder env (button_key b) (Some true) (Some true))
    by (destruct b; try discriminate Hb; reflexivity).
  rewrite Hact. rewrite <- Hstrip in Hdir.
  destruct (play_folder_run env (button_key b) names (stamped env "movie" w)
              Hdir Hperm) as (l & w1 & Hrun & Hl & Hm & Hmode & Hi & Ha).
  rewrite Hrun. cbn [fst snd]. rewrite Hstrip in Hl.
  split; [reflexivity|]. split; [rewrite Hm; exact Hl|]. split; [exact Hmode|].
  split.
  - unfold last_trigger. rewrite Hi. apply last_trigger_stamped.
  - rewrite Ha. reflexivity.
Qed.

(** Button b2, pressed for the first time at 1000, starts the one movie of
    its folder. *)
Lemma movie_button_starts_its_folder_witness :
  Permutation (lp_media_list (snd (deliver env_press B2 Pressed (init env_press))))
    ["/media/usb/b2/d.avi"].
Proof.
  destruct (movie_button_starts_its_folder env_press B2 ["d.avi"] (init env_press))
    as (_ & H & _).
  - reflexivity.
  - reflexivity.
  - reflexivity.
  - intros k l. symmetry. apply Permutation_rev.
  - exact H.
Defined.

(** X17. A card starts the folder of its stripped payload: when the scan
    returns a payload, the gate of the channel "rfid" is open and the
    folder named by the payload without its surrounding white space lists
    [names], with a shuffle that permutes, the RFID check completes, the
    list player holds exactly the recognised files of that folder in some
    order with playback mode 1, the channel "rfid" is stamped and the
    channels of the buttons are as they were. *)
Theorem card_starts_its_folder env payload names w :
  rfid env (scans w) = ScanReturns true (Some payload) ->
  (1 < clock env (clock_reads w) - last_trigger w "rfid")%Q ->
  fs env (os_path_join movies_dir (strip payload)) = Entries names ->
  shuffle_permutes env ->
  let w' := snd (check_rfid env w) in
  fst (check_rfid env w) = Ret tt /\
  Permutation (lp_media_list w')
    (map (os_path_join (os_path_join movies_dir (strip payload)))
       (List.filter is_movie_format names)) /\
  lp_playback_mode w' = 1%Z /\
  last_trigger w' "rfid" = clock env (S (clock_reads w)) /\
  last_trigger w' "movie" = last_trigger w "movie" /\
  last_trigger w' "control" = last_trigger w "control".
Proof.
  intros Hscan Hopen Hdir Hperm w'. subst w'.
  pose proof (check_rfid_keeps_other env "movie" ltac:(discriminate) w) as Hmovie.
  pose proof (check_rfid_keeps_other env "control" ltac:(discriminate) w) as Hcontrol.
  unfold check_rfid, try_except in *.
  set (w0 := set_scans (S (scans w)) w) in *.
  set (wa := set_trace (trace w0 ++ [Log DEBUG (RawFolderName (Some payload))]) w0).
  set (w1 := set_trace (trace wa ++ [Log INFO (RfidScanned (strip payload))]) wa).
  assert (Hgate : (last_trigger w1 "rfid" + 1 < clock env (clock_reads w1))%Q)
    by (subst w1 wa w0; unfold last_trigger in *; cbn; lra).
  rewrite <- (strip_idempotent payload) in Hdir.
  destruct (play_folder_run env (strip payload) names (stamped env "rfid" w1)
              Hdir Hperm) as (l & w2 & Hrun & Hl & Hm & Hmode & Hi & _).
  rewrite strip_idempotent in Hl.
  assert (Hbody :
    (r <- scan_card env ;;
     let '(scanned, folder) := r in
     logging DEBUG (RawFolderName folder) ;;
     if (scanned : bool) then
       folder <- match folder with
                 | Some f => ret (strip f)
                 | None => raise AttributeError
                 end ;;
       logging INFO (RfidScanned folder) ;;
       input_delay env (play_movies_from_folder env folder (Some true) (Some true))
         "rfid" 1 ;;
       ret tt
     else ret tt) w = (Ret tt, w2)).
  { unfold bind at 1, scan_card. rewrite Hscan. fold w0.
    unfold bind at 1, logging, emit. cbn [fst snd].
    unfold bind at 1, ret. cbn [fst snd].
    unfold bind at 1, logging, emit. cbn [fst snd].
    fold wa. fold w1.
    unfold bind at 1.
    rewrite (input_delay_fires env _ "rfid" 1 w1 Hgate), Hrun. reflexivity. }
  rewrite Hbody in *. cbn [fst snd] in *.
  split; [reflexivity|]. split; [rewrite Hm; exact Hl|]. split; [exact Hmode|].
  split; [|split; [exact Hmovie | exact Hcontrol]].
  unfold last_trigger. rewrite Hi.
  fold (last_trigger (stamped env "rfid" w1) "rfid").
  rewrite last_trigger_stamped. reflexivity.
Qed.

(** The card for folder b2 at 1000, its payload padded with blanks, a
    no-break space and a newline: the one movie of b2 is in the list
    player. *)
Lemma card_starts_its_folder_witness :
  Permutation (lp_media_list (snd (check_rfid env_card (init env_card))))
    ["/media/usb/b2/d.avi"].
Proof.
  destruct (card_starts_its_folder env_card card_payload ["d.avi"] (init env_card))
    as (_ & H & _).
  - reflexivity.
  - reflexivity.
  - reflexivity.
  - intros k l. symmetry. apply Permutation_rev.
  - exact H.
Defined.

(** ** The iteration in which the timeout fires *)

(** X18. The iteration in which the inactivity timeout fires, with the
    engine still playing and no card on the reader, resets the player and
    does nothing else: it completes, the only commands the engine receives
    are the empty media list and playback mode 0, the last action time is
    the start of the tick, and the channels' timestamps and the held flag
    are as they were. *)
Theorem timeout_tick_only_resets env w folder :
  (last_action_time w + inactive_timeout w * 60 < clock env (clock_reads w))%Q ->
  in_playing (engine_state env (state_reads w)) = true ->
  rfid env (scans w) = ScanReturns false folder ->
  let w' := snd (tick env w) in
  fst (tick env w) = Ret tt /\
  vlc_calls (trace w')
    = vlc_calls (trace w) ++ [set_media_list []; set_playback_mode 0] /\
  lp_media_list w' = [] /\
  lp_playback_mode w' = 0%Z /\
  last_action_time w' = clock env (clock_reads w) /\
  last_input_times w' = last_input_times w /\
  play_pause_was_held w' = play_pause_was_held w.
Proof.
  intros Hfire Hplay Hscan w'. subst w'. rewrite tick_checks_inactivity_first.
  set (w0 := set_clock_reads (S (clock_reads w)) w).
  set (ts := clock env (clock_reads w)).
  rewrite (bind_ret_run _ _ _ _ _ (inactivity_timeout_fires ts w0 Hfire)).
  rewrite (bind_ret_run _ _ _ _ _
             (default_movie_playing env (reset_player ts w0) Hplay)).
  set (w1 := set_trace _ _).
  rewrite (bind_ret_run _ _ _ _ _ (check_rfid_not_scanned env w1 folder Hscan)).
  set (w2 := set_trace _ _).
  destruct (returns_pace env ts w2) as [[] Hp].
  pose proof (silent_pace env ts w2) as Hv. cbv beta in Hv.
  split; [exact Hp|]. split.
  - rewrite Hv. subst w2 w1 w0. unfold reset_player.
    cbn [trace set_trace set_scans set_state_reads set_clock_reads
         set_last_action_time set_lp_playback_mode set_lp_media_list].
    rewrite !vlc_calls_app. cbn [vlc_calls]. rewrite !app_nil_r. reflexivity.
  - repeat split;
      match goal with
      | |- ?f _ = _ =>
          transitivity (f w2);
          [apply (kf_pace f); intros; reflexivity | reflexivity]
      end.
Qed.

(** Five hours and a second after the start, the first iteration resets
    the player. *)
Lemma timeout_tick_only_resets_witness :
  vlc_calls (trace (snd (tick env_timeout (init env_timeout))))
  = [set_fullscreen true; set_media_list []; set_playback_mode 0].
Proof.
  destruct (timeout_tick_only_resets env_timeout (init env_timeout) None)
    as (_ & H & _).
  - reflexivity.
  - reflexivity.
  - reflexivity.
  - rewrite H. reflexivity.
Defined.
